(** * Komodo MCP server: error sanitizer, configuration loader, access-tier gate

    A shallow embedding of [core/errors.ts], [core/config.ts] and
    [core/tools.ts] (with the [AccessTier] of [types/index.ts]), followed
    by the properties of the sanitizer, of the configuration loader and of
    the tool registration gate.

    JavaScript strings are sequences of UTF-16 code units and are modelled
    as [list N].  The names of the environment variables, which only the
    program text uses, are Rocq strings; [process.env] is a finite map.
    A call that can throw returns a [completion].  The module-level array
    of sensitive patterns and the protocol server are threaded as
    states. *)

From Stdlib Require Import NArith ZArith Ascii String DecimalString Lia.
From stdpp Require Import gmap strings list.

Set Warnings "-register-all".

Local Open Scope N_scope.
Local Open Scope nat_scope.

(** ** JavaScript strings *)

Abbreviation jsstring := (list N).

(** The code units of an ASCII literal of the program text. *)
Definition u16 (s : string) : jsstring :=
  map N_of_ascii (list_ascii_of_string s).

Arguments u16 : simpl never.

(** [WhiteSpace] and [LineTerminator] of ECMAScript: what the regular
    expression class [\s] matches and what [String.prototype.trim]
    removes. *)
Definition is_space (c : N) : bool :=
  ((9 <=? c) && (c <=? 13))%N
  || (c =? 32)%N || (c =? 160)%N || (c =? 5760)%N
  || ((8192 <=? c) && (c <=? 8202))%N
  || (c =? 8232)%N || (c =? 8233)%N || (c =? 8239)%N
  || (c =? 8287)%N || (c =? 12288)%N || (c =? 65279)%N.

Definition non_space (c : N) : bool := negb (is_space c).

Fixpoint skip_while (p : N → bool) (s : jsstring) : jsstring :=
  match s with
  | [] => []
  | c :: s' => if p c then skip_while p s' else s
  end.

Fixpoint keep_while (p : N → bool) (s : jsstring) : jsstring :=
  match s with
  | [] => []
  | c :: s' => if p c then c :: keep_while p s' else []
  end.

(** [String.prototype.trim]. *)
Definition trim (s : jsstring) : jsstring :=
  rev (skip_while is_space (rev (skip_while is_space s))).

(** [String.prototype.split] with a one-unit separator: the segments
    between the separators, in order; the empty string has one (empty)
    segment. *)
Fixpoint split (sep : N) (s : jsstring) : list jsstring :=
  match s with
  | [] => [[]]
  | c :: s' =>
      if (c =? sep)%N then [] :: split sep s'
      else match split sep s' with
           | seg :: segs => (c :: seg) :: segs
           | [] => [[c]]
           end
  end.

(** [Array.prototype.join]. *)
Fixpoint join (sep : jsstring) (l : list jsstring) : jsstring :=
  match l with
  | [] => []
  | [x] => x
  | x :: l' => x ++ sep ++ join sep l'
  end.

(** [b] starts with [a]. *)
Fixpoint starts_with (a b : jsstring) : bool :=
  match a, b with
  | [], _ => true
  | x :: a', y :: b' => (x =? y)%N && starts_with a' b'
  | _ :: _, [] => false
  end.

(** [String.prototype.includes]: [p] occurs in [s] as a substring. *)
Fixpoint includes (s p : jsstring) : bool :=
  starts_with p s ||
  match s with
  | [] => false
  | _ :: s' => includes s' p
  end.

Definition occurs (p s : jsstring) : Prop := ∃ a b, s = a ++ p ++ b.

(** *** Global replacement

    Both [String.prototype.replaceAll] with a string pattern and
    [String.prototype.replace] with a [/g] regular expression scan the
    subject from left to right: at the current index the matcher is
    tried; on a match of [n] code units the replacement is emitted and the
    scan resumes [n] units later, otherwise the unit is copied.  [skip]
    counts the units of the current match still to be dropped.  The
    matchers below never match the empty string. *)
Fixpoint scan (m : jsstring → option nat) (out : jsstring)
    (skip : nat) (s : jsstring) : jsstring :=
  match s with
  | [] => []
  | c :: s' =>
      match skip with
      | S k => scan m out k s'
      | O =>
          match m s with
          | Some n => out ++ scan m out (pred n) s'
          | None => c :: scan m out 0 s'
          end
      end
  end.

(** A matcher consumes at least one unit and no more than there are. *)
Definition proper (m : jsstring → option nat) : Prop :=
  ∀ s n, m s = Some n → 1 ≤ n ≤ length s.

Definition literal_match (p s : jsstring) : option nat :=
  if starts_with p s then Some (length p) else None.

(** [s.replaceAll(p, out)] for a replacement text without [$].  The empty
    pattern matches before every unit and at the end. *)
Definition replaceAll (p out s : jsstring) : jsstring :=
  match p with
  | [] => out ++ flat_map (λ c, c :: out) s
  | _ :: _ => scan (literal_match p) out 0 s
  end.

(** Case-insensitive comparison under the [/i] flag (no [/u] flag): two
    units match when their canonical forms agree.  The patterns here are
    ASCII; the canonical form of a unit below 128 is its ASCII upper case,
    and a unit from 128 on never canonicalizes to a unit below 128, so the
    identity stands for its canonical form. *)
Definition canonicalize (c : N) : N :=
  if ((97 <=? c) && (c <=? 122))%N then (c - 32)%N else c.

Definition ci_eq (a b : N) : bool := (canonicalize a =? canonicalize b)%N.

(** Match the literal [lit] case-insensitively at the start of [s]; the
    rest of [s] on success. *)
Fixpoint strip_lit (lit s : jsstring) : option jsstring :=
  match lit, s with
  | [], _ => Some s
  | l :: lit', c :: s' => if ci_eq l c then strip_lit lit' s' else None
  | _ :: _, [] => None
  end.

(** The matcher of [/name\s*\S+/gi] at the start of [s]: the literal, the
    longest run of white space, then the longest non-empty run of other
    units.  ([\s] and [\S] are complementary, so giving back white space
    never helps: when no unit follows the white space there is no match.)
    The result is the length of the match. *)
Definition header_match (name s : jsstring) : option nat :=
  match strip_lit name s with
  | None => None
  | Some r =>
      match skip_while is_space r with
      | [] => None
      | v =>
          Some (length name + length (keep_while is_space r)
                + length (keep_while non_space v))
      end
  end.

Definition REDACTED : jsstring := u16 "[REDACTED]".

(** What [replace] writes for the header [name]:
    ["name [REDACTED]"]. *)
Definition header_out (name : jsstring) : jsstring :=
  name ++ u16 " " ++ REDACTED.

Definition redact_header (name s : jsstring) : jsstring :=
  scan (header_match name) (header_out name) 0 s.

Arguments redact_header : simpl never.

(** ** core/errors.ts *)

Definition x_api_key : jsstring := u16 "x-api-key:".
Definition x_api_secret : jsstring := u16 "x-api-secret:".
Definition authorization : jsstring := u16 "authorization:".

(** The module-level array [SENSITIVE_PATTERNS] is threaded as a state. *)
Abbreviation registry := (list jsstring).

Definition SENSITIVE_PATTERNS : registry := [].

Definition registerSensitivePattern (pattern : jsstring) (reg : registry)
    : registry :=
  match pattern with
  | [] => reg
  | _ :: _ => reg ++ [pattern]
  end.

(** The registry after registering [secrets] in order at startup. *)
Definition registered (secrets : list jsstring) : registry :=
  fold_left (λ reg p, registerSensitivePattern p reg) secrets
    SENSITIVE_PATTERNS.

Definition redact_patterns (reg : registry) (message : jsstring) : jsstring :=
  fold_left (λ sanitized pattern, replaceAll pattern REDACTED sanitized)
    reg message.

Definition redact_headers (s : jsstring) : jsstring :=
  redact_header authorization
    (redact_header x_api_secret (redact_header x_api_key s)).

Definition sanitizeMessage (reg : registry) (message : jsstring) : jsstring :=
  redact_headers (redact_patterns reg message).


(** *** Overlap of two texts

    [a] and [b] overlap when they can be laid over each other with at
    least one position in common and agree wherever both are present: a
    non-empty tail of one agrees with the other up to the shorter
    length. *)
Fixpoint compat (a b : jsstring) : bool :=
  match a, b with
  | x :: a', y :: b' => (x =? y)%N && compat a' b'
  | _, _ => true
  end.

Fixpoint tails_ne (l : jsstring) : list jsstring :=
  match l with
  | [] => []
  | _ :: l' => l :: tails_ne l'
  end.

Definition overlaps (a b : jsstring) : bool :=
  existsb (λ u, compat u b) (tails_ne a)
  || existsb (λ v, compat a v) (tails_ne b).

(** The texts [sanitizeMessage] writes. *)
Definition written_texts : list jsstring :=
  [REDACTED; header_out x_api_key; header_out x_api_secret;
   header_out authorization].

(** No registered pattern overlaps a text the sanitizer writes. *)
Definition clear_of_written (reg : registry) : bool :=
  forallb (λ p, forallb (λ w, negb (overlaps p w)) written_texts) reg.


(** *** Header replacements that have settled

    The second half of what [replace] writes for a header. *)
Definition SP_REDACTED : jsstring := u16 " " ++ REDACTED.

(** The units of the header names: lower-case letters, [-] and [:]. *)
Definition wordy (c : N) : bool :=
  (c =? 45)%N || (c =? 58)%N || ((97 <=? c) && (c <=? 122))%N.

(** The literal [lit] and the text [s] disagree (case-insensitively) at a
    position both have. *)
Fixpoint ci_clash (lit s : jsstring) : bool :=
  match lit, s with
  | l :: lit', c :: s' => if ci_eq l c then ci_clash lit' s' else true
  | _, _ => false
  end.

(** The text ends, or goes on with white space. *)
Definition ends_word (s : jsstring) : Prop :=
  match s with
  | [] => True
  | c :: _ => is_space c = true
  end.

(** A match of the header at the start of [t] is exactly what [replace]
    writes for it. *)
Definition settled_at (name t : jsstring) : Prop :=
  ∀ n, header_match name t = Some n → take n t = header_out name.

(** Every match of the header anywhere in [t] is what [replace] writes. *)
Fixpoint settled (name t : jsstring) : Prop :=
  match t with
  | [] => True
  | _ :: t' => settled_at name t ∧ settled name t'
  end.

(** Checks on the header names, decided by computation. *)

(** The name is not empty and made of letters, [-] and [:]. *)
Definition head_check (name : jsstring) : bool :=
  match name with
  | [] => false
  | _ :: _ => forallb wordy name
  end.

(** No proper tail of [name] can run into what [replace] writes for
    [other]. *)
Definition walk_check (name other : jsstring) : bool :=
  forallb (λ v, ci_clash v (header_out other)) (tails_ne (tail name)).

(** [other] is not matched inside the value that [replace] writes. *)
Definition after_check (other : jsstring) : bool :=
  forallb (ci_clash other) (tails_ne SP_REDACTED).

(** [name] is not matched inside [w]. *)
Definition inner_check (name w : jsstring) : bool :=
  forallb (ci_clash name) (tails_ne w).

(** ** Completions: a call returns a value or throws *)

Inductive exception :=
| TypeError
| Error (message : jsstring).

Inductive completion (A : Type) :=
| Returns (a : A)
| Throws (e : exception).

Arguments Returns {A} a.
Arguments Throws {A} e.

#[global] Instance completion_ret : MRet completion := λ A a, Returns a.

#[global] Instance completion_bind : MBind completion := λ A B k c,
  match c with
  | Returns a => k a
  | Throws e => Throws e
  end.

(** ** The values an [unknown] can hold

    A finite Number is written as the text that [Number::toString] gives
    for it, which determines the number (up to the sign of zero, which
    this program cannot observe): [Finite "401"], [Finite "0.1"],
    [Finite "1e+21"]. *)
Inductive number :=
| Finite (text : jsstring)
| NaN
| Infinity (negative : bool).

(** The values that are not objects; the description of a symbol is empty
    when it has none. *)
Inductive primitive :=
| PUndefined
| PNull
| PBool (b : bool)
| PNumber (n : number)
| PBigInt (n : Z)
| PString (s : jsstring)
| PSymbol (description : jsstring).

(** Objects are written as trees.  A property whose value is one of the
    objects enclosing it (a cycle in the object graph) is [VBack k], the
    [k]-th enclosing object counted from the innermost; an object reached
    twice without a cycle is written out twice, which is how
    [JSON.stringify] visits it.

    [VError] is an instance of [Error] with what reading its [message]
    gives, a primitive.  It is taken without enumerable properties: this
    program reads nothing but the message of an [Error] that it is given,
    and of an [Error] inside another object [JSON.stringify] sees the
    enumerable properties only, so that one that has some is written there
    as the [VObject] of them.

    [VObject] is an object with its enumerable string-keyed properties in
    enumeration order, all of them data properties; a method found on its
    prototype (such as the [toJSON] of a [Date]) is listed with them, for
    a property that holds a function is never serialized.  [VAccessors] is
    such an object some of whose properties are accessors: each is listed
    with what reading it gives, a value or an exception.  [VArray] is an
    array with its elements.

    [VFunction] is a function without properties of its own, with the text
    [String] gives for it and with what a call of it gives, whatever the
    arguments; the only call this program can cause is that of a [toJSON]
    method. *)
Inductive value :=
| VUndefined
| VNull
| VBool (b : bool)
| VNumber (n : number)
| VBigInt (n : Z)
| VString (s : jsstring)
| VSymbol (description : jsstring)
| VFunction (text : jsstring) (call : completion value)
| VError (message : primitive)
| VObject (props : list (jsstring * value))
| VAccessors (reads : list (jsstring * completion value))
| VArray (elems : list value)
| VBack (k : nat).

(** [P] holds of what the completion returns, if it returns. *)
Definition if_returns (P : value → Prop) (c : completion value) : Prop :=
  match c with
  | Returns r => P r
  | Throws _ => True
  end.

(** Induction on values, with the induction hypothesis for what a function
    returns and for every property and element. *)
Fixpoint value_ind' (P : value → Prop)
    (Hundefined : P VUndefined) (Hnull : P VNull)
    (Hbool : ∀ b, P (VBool b)) (Hnumber : ∀ n, P (VNumber n))
    (Hbigint : ∀ n, P (VBigInt n))
    (Hstring : ∀ s, P (VString s)) (Hsymbol : ∀ d, P (VSymbol d))
    (Hfunction : ∀ text call, if_returns P call → P (VFunction text call))
    (Herror : ∀ m, P (VError m))
    (Hobject : ∀ props, Forall (λ kv, P kv.2) props → P (VObject props))
    (Haccessors : ∀ reads, Forall (λ kc, if_returns P kc.2) reads →
                           P (VAccessors reads))
    (Harray : ∀ elems, Forall P elems → P (VArray elems))
    (Hback : ∀ k, P (VBack k))
    (v : value) {struct v} : P v :=
  let rec := value_ind' P Hundefined Hnull Hbool Hnumber Hbigint Hstring
               Hsymbol Hfunction Herror Hobject Haccessors Harray Hback in
  match v with
  | VUndefined => Hundefined
  | VNull => Hnull
  | VBool b => Hbool b
  | VNumber n => Hnumber n
  | VBigInt n => Hbigint n
  | VString s => Hstring s
  | VSymbol d => Hsymbol d
  | VFunction text call =>
      Hfunction text call
        match call return if_returns P call with
        | Returns r => rec r
        | Throws _ => I
        end
  | VError m => Herror m
  | VObject props =>
      Hobject props
        ((fix all (ps : list (jsstring * value))
              : Forall (λ kv, P kv.2) ps :=
            match ps with
            | [] => List.Forall_nil _
            | kv :: ps' => @List.Forall_cons _ _ kv ps' (rec kv.2) (all ps')
            end) props)
  | VAccessors reads =>
      Haccessors reads
        ((fix all (ps : list (jsstring * completion value))
              : Forall (λ kc, if_returns P kc.2) ps :=
            match ps with
            | [] => List.Forall_nil _
            | (k, c) :: ps' =>
                @List.Forall_cons _ (λ kc, if_returns P kc.2) (k, c) ps'
                  match c return if_returns P c with
                  | Returns r => rec r
                  | Throws _ => I
                  end
                  (all ps')
            end) reads)
  | VArray elems =>
      Harray elems
        ((fix all es : Forall P es :=
            match es with
            | [] => List.Forall_nil _
            | x :: es' => @List.Forall_cons _ _ x es' (rec x) (all es')
            end) elems)
  | VBack k => Hback k
  end.

(** [Number::toString]. *)
Definition number_to_string (n : number) : jsstring :=
  match n with
  | Finite text => text
  | NaN => u16 "NaN"
  | Infinity false => u16 "Infinity"
  | Infinity true => u16 "-Infinity"
  end.

(** [BigInt::toString]: the decimal digits, after [-] when negative. *)
Definition bigint_to_string (n : Z) : jsstring :=
  u16 (DecimalString.NilZero.string_of_int (Z.to_int n)).

(** [String(v)] for the values that are not objects: the primitives and,
    by [Function.prototype.toString], the functions. *)
Definition to_String (v : value) : jsstring :=
  match v with
  | VUndefined => u16 "undefined"
  | VNull => u16 "null"
  | VBool true => u16 "true"
  | VBool false => u16 "false"
  | VNumber n => number_to_string n
  | VBigInt n => bigint_to_string n
  | VString s => s
  | VSymbol description => u16 "Symbol(" ++ description ++ u16 ")"
  | VFunction text _ => text
  | _ => u16 "[object Object]"
  end.

(** *** [JSON.stringify] *)

Definition hex_digit (d : N) : N :=
  if (d <? 10)%N then (48 + d)%N else (87 + d)%N.

Definition unicode_escape (c : N) : jsstring :=
  u16 "\u" ++ [hex_digit ((c / 4096) mod 16); hex_digit ((c / 256) mod 16);
               hex_digit ((c / 16) mod 16); hex_digit (c mod 16)].

Definition is_lead (c : N) : bool := ((55296 <=? c) && (c <=? 56319))%N.
Definition is_trail (c : N) : bool := ((56320 <=? c) && (c <=? 57343))%N.

Fixpoint quote_units (s : jsstring) : jsstring :=
  match s with
  | [] => []
  | c :: s' =>
      if (c =? 8)%N then u16 "\b" ++ quote_units s'
      else if (c =? 9)%N then u16 "\t" ++ quote_units s'
      else if (c =? 10)%N then u16 "\n" ++ quote_units s'
      else if (c =? 12)%N then u16 "\f" ++ quote_units s'
      else if (c =? 13)%N then u16 "\r" ++ quote_units s'
      else if (c =? 34)%N then [92; 34]%N ++ quote_units s'
      else if (c =? 92)%N then [92; 92]%N ++ quote_units s'
      else if (c <? 32)%N then unicode_escape c ++ quote_units s'
      else if is_lead c then
        match s' with
        | d :: s'' =>
            if is_trail d then c :: d :: quote_units s''
            else unicode_escape c ++ quote_units s'
        | [] => unicode_escape c
        end
      else if is_trail c then unicode_escape c ++ quote_units s'
      else c :: quote_units s'
  end.

(** [QuoteJSONString]. *)
Definition QuoteJSONString (s : jsstring) : jsstring :=
  [34%N] ++ quote_units s ++ [34%N].

(** [GetV(value, "toJSON")] and, when what it gives is callable, the
    call: [returned] applied to what the call returns, [threw] to what is
    thrown; [None] when the object has no [toJSON] that is callable. *)
Definition toJSON_of {B : Type} (returned : value → B)
    (threw : exception → B) : list (jsstring * value) → option B :=
  fix find ps :=
    match ps with
    | [] => None
    | (P, x) :: ps' =>
        if bool_decide (P = u16 "toJSON") then
          match x with
          | VFunction _ (Returns r) => Some (returned r)
          | VFunction _ (Throws e) => Some (threw e)
          | _ => None
          end
        else find ps'
    end.

(** The same for an object with accessors: reading [toJSON] can throw. *)
Definition toJSON_of_accessors {B : Type} (returned : value → B)
    (threw : exception → B)
    : list (jsstring * completion value) → option B :=
  fix find ps :=
    match ps with
    | [] => None
    | (P, read) :: ps' =>
        if bool_decide (P = u16 "toJSON") then
          match read with
          | Returns (VFunction _ (Returns r)) => Some (returned r)
          | Returns (VFunction _ (Throws e)) => Some (threw e)
          | Returns _ => None
          | Throws e => Some (threw e)
          end
        else find ps'
    end.

(** The members of an object: [key:value] for every property whose value
    does not serialize to [undefined]. *)
Definition object_members (serialize : value → completion (option jsstring))
    : list (jsstring * value) → completion (list jsstring) :=
  fix members ps :=
    match ps with
    | [] => Returns []
    | (P, x) :: ps' =>
        strP ← serialize x;
        rest ← members ps';
        Returns
          match strP with
          | Some str => (QuoteJSONString P ++ u16 ":" ++ str) :: rest
          | None => rest
          end
    end.

(** The same for an object with accessors: reading a property can
    throw. *)
Definition accessor_members
    (serialize : value → completion (option jsstring))
    : list (jsstring * completion value) → completion (list jsstring) :=
  fix members ps :=
    match ps with
    | [] => Returns []
    | (P, read) :: ps' =>
        strP ← match read with
               | Returns x => serialize x
               | Throws e => Throws e
               end;
        rest ← members ps';
        Returns
          match strP with
          | Some str => (QuoteJSONString P ++ u16 ":" ++ str) :: rest
          | None => rest
          end
    end.

(** The items of an array: [null] stands for [undefined]. *)
Definition array_items (serialize : value → completion (option jsstring))
    : list value → completion (list jsstring) :=
  fix items es :=
    match es with
    | [] => Returns []
    | x :: es' =>
        strP ← serialize x;
        rest ← items es';
        Returns (default (u16 "null") strP :: rest)
    end.

(** [SerializeJSONProperty] without replacer and indentation, on the value
    read from the holder: [None] is [undefined].  An object with a callable
    [toJSON] is replaced by what the call returns, and the replacement is
    serialized without a second call ([called]).  A BigInt and an object
    that is already on the stack throw a [TypeError]. *)
Fixpoint SerializeJSONProperty (called : bool) (v : value) {struct v}
    : completion (option jsstring) :=
  match v with
  | VUndefined | VSymbol _ | VFunction _ _ => Returns None
  | VNull => Returns (Some (u16 "null"))
  | VBool true => Returns (Some (u16 "true"))
  | VBool false => Returns (Some (u16 "false"))
  | VNumber (Finite text) => Returns (Some text)
  | VNumber _ => Returns (Some (u16 "null"))
  | VBigInt _ => Throws TypeError
  | VString s => Returns (Some (QuoteJSONString s))
  | VError _ => Returns (Some (u16 "{}"))
  | VObject props =>
      match
        if called then None
        else toJSON_of (SerializeJSONProperty true) Throws props
      with
      | Some replaced => replaced
      | None =>
          partial ← object_members (SerializeJSONProperty false) props;
          Returns (Some (u16 "{" ++ join (u16 ",") partial ++ u16 "}"))
      end
  | VAccessors reads =>
      match
        if called then None
        else toJSON_of_accessors (SerializeJSONProperty true) Throws reads
      with
      | Some replaced => replaced
      | None =>
          partial ← accessor_members (SerializeJSONProperty false) reads;
          Returns (Some (u16 "{" ++ join (u16 ",") partial ++ u16 "}"))
      end
  | VArray elems =>
      partial ← array_items (SerializeJSONProperty false) elems;
      Returns (Some (u16 "[" ++ join (u16 ",") partial ++ u16 "]"))
  | VBack _ => Throws TypeError
  end.

Definition JSON_stringify (v : value) : completion (option jsstring) :=
  SerializeJSONProperty false v.

(** *** When [JSON.stringify] gives a text

    Nothing that [JSON.stringify] reaches in [v] makes it throw: no
    reference to an enclosing object, no BigInt, no property whose reading
    throws and no [toJSON] whose call throws.  The properties of an object
    that is replaced by its [toJSON] are not reached. *)
Fixpoint serializes (called : bool) (v : value) {struct v} : bool :=
  match v with
  | VBigInt _ | VBack _ => false
  | VObject props =>
      match
        if called then None
        else toJSON_of (serializes true) (λ _, false) props
      with
      | Some replaced => replaced
      | None => forallb (λ kv, serializes false kv.2) props
      end
  | VAccessors reads =>
      match
        if called then None
        else toJSON_of_accessors (serializes true) (λ _, false) reads
      with
      | Some replaced => replaced
      | None =>
          forallb (λ kc, match kc.2 with
                         | Returns x => serializes false x
                         | Throws _ => false
                         end) reads
      end
  | VArray elems => forallb (serializes false) elems
  | _ => true
  end.

(** The call of the [toJSON] method of a value, if it has one. *)
Definition toJSON_call (v : value) : option (completion value) :=
  match v with
  | VObject props => toJSON_of Returns Throws props
  | VAccessors reads => toJSON_of_accessors Returns Throws reads
  | _ => None
  end.

(** What is serialized in place of [v]. *)
Definition replacement (v : value) : value :=
  match toJSON_call v with
  | Some (Returns r) => r
  | _ => v
  end.

(** The values for which [JSON.stringify] gives [undefined]. *)
Definition unserialized (v : value) : bool :=
  match v with
  | VUndefined | VSymbol _ | VFunction _ _ => true
  | _ => false
  end.

(** ** core/errors.ts, continued *)

Record TextContent := { type : jsstring; text : jsstring }.

Record McpErrorResponse := {
  content : list TextContent;
  isError : bool
}.

(** [error instanceof Error]. *)
Definition instanceof_Error (error : value) : bool :=
  match error with
  | VError _ => true
  | _ => false
  end.

(** [typeof error === "object" && error !== null]. *)
Definition is_object (error : value) : bool :=
  match error with
  | VError _ | VObject _ | VAccessors _ | VArray _ | VBack _ => true
  | _ => false
  end.

(** The conditional expression that yields [rawMessage]: the message of an
    [Error], whatever it is; what [JSON.stringify] returns, a string or
    [undefined]; or a string. *)
Definition rawMessage (error : value) : completion primitive :=
  match error with
  | VError message => Returns message
  | _ =>
      if is_object error then
        r ← JSON_stringify error ;
        match r with
        | Some s => Returns (PString s)
        | None => Returns PUndefined
        end
      else Returns (PString (to_String error))
  end.

(** [sanitizeMessage] called with what [rawMessage] is at run time.  On a
    primitive that is not a string its first method call ([replaceAll] or,
    when no pattern is registered, [replace]) throws a [TypeError]:
    [undefined] and [null] have no properties, and a boolean, a number, a
    bigint and a symbol have no such method. *)
Definition sanitize (reg : registry) (message : primitive)
    : completion jsstring :=
  match message with
  | PString message => Returns (sanitizeMessage reg message)
  | _ => Throws TypeError
  end.

Definition handleKomodoError (reg : registry) (context : jsstring)
    (error : value) : completion McpErrorResponse :=
  raw ← rawMessage error ;
  safeMessage ← sanitize reg raw ;
  Returns {|
    content := [ {| type := u16 "text";
                    text := u16 "Error " ++ context ++ u16 ": "
                            ++ safeMessage |} ];
    isError := true
  |}.

(** The values on which [handleKomodoError] has a string to report: every
    value that is not an object; an [Error] whose message is a string; and
    every other object of which [JSON.stringify] gives a text, that is,
    in which it reaches nothing that throws and which its [toJSON] does
    not replace by [undefined], a function or a symbol. *)
Definition reportable (error : value) : bool :=
  match error with
  | VError (PString _) => true
  | VError _ => false
  | _ =>
      if is_object error then
        serializes false error && negb (unserialized (replacement error))
      else true
  end.

(** What the specification says of [wrapError]: the message property if
    the value has one, else the structured form, else the coercion to a
    string. *)
Definition spec_message_property (error : value) : option jsstring :=
  match error with
  | VError (PString message) => Some message
  | VObject props =>
      match list_find (λ kv, bool_decide (kv.1 = u16 "message")) props with
      | Some (_, (_, VString m)) => Some m
      | _ => None
      end
  | _ => None
  end.

Definition spec_normalize (error : value) : completion jsstring :=
  match spec_message_property error with
  | Some m => Returns m
  | None =>
      if is_object error then
        r ← JSON_stringify error ;
        match r with
        | Some s => Returns s
        | None => Throws TypeError
        end
      else Returns (to_String error)
  end.

Definition spec_wrapError (reg : registry) (context : jsstring)
    (error : value) : completion McpErrorResponse :=
  raw ← spec_normalize error ;
  Returns {|
    content := [ {| type := u16 "text";
                    text := u16 "Error " ++ context ++ u16 ": "
                            ++ sanitizeMessage reg raw |} ];
    isError := true
  |}.

(** The normalization of the thrown value, in words: the message of an
    instance of [Error], when it is a string; for any other object (not
    [null]) the text [JSON.stringify] returns; for every other value its
    coercion to a string. *)
Inductive normalized : value → jsstring → Prop :=
| normalized_error (m : jsstring) :
    normalized (VError (PString m)) m
| normalized_object (v : value) (s : jsstring) :
    instanceof_Error v = false → is_object v = true →
    JSON_stringify v = Returns (Some s) →
    normalized v s
| normalized_primitive (v : value) :
    is_object v = false →
    normalized v (to_String v).

(** ** types/index.ts *)

Inductive AccessTier := read_only | read_execute | full.

#[global] Instance AccessTier_eq_dec : EqDecision AccessTier.
Proof. solve_decision. Defined.

(** The string each tier is in the program. *)
Definition tier_name (t : AccessTier) : jsstring :=
  match t with
  | read_only => u16 "read-only"
  | read_execute => u16 "read-execute"
  | full => u16 "full"
  end.

(** ** core/config.ts *)

Module Config.

Record AppConfig := {
  url : jsstring;
  apiKey : jsstring;
  apiSecret : jsstring;
  accessTier : AccessTier;
  categories : option (list jsstring);
  debug : bool
}.

(** [process.env]: the variables that are set, with their values. *)
Abbreviation environment := (gmap string jsstring).

Definition parseAccessTier (env : environment) : AccessTier :=
  match env !! "KOMODO_ACCESS_TIER"%string with
  | Some tier =>
      if bool_decide (tier = u16 "read-only") then read_only
      else if bool_decide (tier = u16 "read-execute") then read_execute
      else full
  | None => full
  end.

Definition parseCategories (value : option jsstring)
    : option (list jsstring) :=
  match value with
  | None => None
  | Some [] => None
  | Some value =>
      Some (filter (λ s, 0 < length s) (map trim (split 44 value)))
  end.

(** [!v]: the variable is not set, or set to the empty string. *)
Definition falsy (v : option jsstring) : bool :=
  match v with
  | None | Some [] => true
  | Some (_ :: _) => false
  end.

(** [url.replace(/\/+$/, '')]: the trailing slashes are removed. *)
Definition strip_trailing_slashes (s : jsstring) : jsstring :=
  rev (skip_while (λ c, (c =? 47)%N) (rev s)).

Definition missing_message (missing : list jsstring) : jsstring :=
  u16 "Missing required environment variables: "
  ++ join (u16 ", ") missing ++ u16 ". "
  ++ u16 "Set these variables to connect to your Komodo instance.".

(** The array [missing] that [loadConfig] builds. *)
Definition missing_variables (env : environment) : list jsstring :=
  (if falsy (env !! "KOMODO_URL"%string) then [u16 "KOMODO_URL"] else [])
  ++ (if falsy (env !! "KOMODO_API_KEY"%string)
      then [u16 "KOMODO_API_KEY"] else [])
  ++ (if falsy (env !! "KOMODO_API_SECRET"%string)
      then [u16 "KOMODO_API_SECRET"] else []).

Definition loadConfig (env : environment) : completion AppConfig :=
  let url := env !! "KOMODO_URL"%string in
  let apiKey := env !! "KOMODO_API_KEY"%string in
  let apiSecret := env !! "KOMODO_API_SECRET"%string in
  let missing := missing_variables env in
  if bool_decide (0 < length missing) then
    Throws (Error (missing_message missing))
  else
    match url, apiKey, apiSecret with
    | Some url, Some apiKey, Some apiSecret =>
        Returns {|
          url := strip_trailing_slashes url;
          apiKey := apiKey;
          apiSecret := apiSecret;
          accessTier := parseAccessTier env;
          categories := parseCategories (env !! "KOMODO_CATEGORIES"%string);
          debug := negb (falsy (env !! "DEBUG"%string))
        |}
    | _, _, _ => Throws TypeError (* not reached: none is missing here *)
    end.

(** The names of the required variables. *)
Definition required : list string :=
  ["KOMODO_URL"; "KOMODO_API_KEY"; "KOMODO_API_SECRET"]%string.

End Config.

(** ** core/tools.ts *)

Module Tools.

Definition TIER_LEVELS (t : AccessTier) : nat :=
  match t with
  | read_only => 0
  | read_execute => 1
  | full => 2
  end.

(** The protocol's [ToolAnnotations]: an object whose properties [title],
    [readOnlyHint], [destructiveHint], [idempotentHint] and [openWorldHint]
    are all optional.  A property can be absent, or present with a value,
    [undefined] included; object spread tells the two apart, so the object
    is kept as the map of its own properties. *)
Abbreviation ToolAnnotations := (gmap string value).

(** Reading a hint: the boolean the property holds, if it holds one. *)
Definition hint (key : string) (annotations : ToolAnnotations)
    : option bool :=
  match annotations !! key with
  | Some (VBool b) => Some b
  | _ => None
  end.

Definition readOnlyHint : ToolAnnotations → option bool :=
  hint "readOnlyHint".
Definition destructiveHint : ToolAnnotations → option bool :=
  hint "destructiveHint".
Definition idempotentHint : ToolAnnotations → option bool :=
  hint "idempotentHint".
Definition openWorldHint : ToolAnnotations → option bool :=
  hint "openWorldHint".

(** [{...base, ...over}]: every own property of [over] is copied over
    [base], also one whose value is [undefined]; spreading [undefined]
    copies nothing. *)
Definition spread (base : ToolAnnotations) (over : option ToolAnnotations)
    : ToolAnnotations :=
  default ∅ over ∪ base.

Section Registration.

(** Input schemas and handlers are passed through unchanged. *)
Context {ZodRawShape Handler : Type}.

Record ToolRegistrationOptions := {
  name : jsstring;
  description : jsstring;
  accessTier : AccessTier;
  category : jsstring;
  annotations : option ToolAnnotations;
  inputSchema : option ZodRawShape;
  handler : Handler
}.

(** The second argument of [server.registerTool]. *)
Record ToolConfig := {
  tc_description : jsstring;
  tc_inputSchema : option ZodRawShape;
  tc_annotations : ToolAnnotations
}.

(** The protocol server, as far as this code sees it: the calls of
    [server.registerTool] made so far, in order. *)
Definition McpServer : Type := list (jsstring * ToolConfig * Handler).

(** [Array.prototype.includes] on strings. *)
Definition array_includes (l : list jsstring) (x : jsstring) : bool :=
  bool_decide (x ∈ l).

Definition registerTool (server : McpServer) (config : Config.AppConfig)
    (options : ToolRegistrationOptions) : bool * McpServer :=
  if TIER_LEVELS (Config.accessTier config) <? TIER_LEVELS (accessTier options)
  then (false, server)
  else if match Config.categories config with
          | Some categories => negb (array_includes categories (category options))
          | None => false
          end
  then (false, server)
  else
    let annotations := spread
      {[ "readOnlyHint"%string :=
           VBool (bool_decide (accessTier options = read_only));
         "destructiveHint"%string := VBool false ]}
      (annotations options) in
    let toolConfig := {|
      tc_description := description options;
      tc_inputSchema := inputSchema options;
      tc_annotations := annotations
    |} in
    (true, server ++ [(name options, toolConfig, handler options)]).

(** The tool modules call [registerTool] for each of their tools in turn,
    on the same server and configuration. *)
Definition registerAll (config : Config.AppConfig)
    (tools : list ToolRegistrationOptions) (server : McpServer) : McpServer :=
  fold_left (λ server options, (registerTool server config options).2)
    tools server.

(** The names of the tools registered with the server. *)
Definition registered_names (server : McpServer) : gset jsstring :=
  list_to_set (map (λ r, r.1.1) server).

End Registration.

Arguments ToolRegistrationOptions : clear implicits.
Arguments ToolConfig : clear implicits.
Arguments McpServer : clear implicits.

End Tools.

(** ** Further definitions *)

(** The pattern of the header [name] matches somewhere in [s]: the name
    (without regard to case), any white space, and at least one unit that
    is not white space. *)
Fixpoint matched (name s : jsstring) : bool :=
  match header_match name s with
  | Some _ => true
  | None =>
      match s with
      | [] => false
      | _ :: s' => matched name s'
      end
  end.

(** ** core/client.ts *)

Module Client.

(** The arguments with which the client factory of the Komodo library is
    called. *)
Record KomodoClient := {
  endpoint : jsstring;
  auth_type : jsstring;
  key : jsstring;
  secret : jsstring
}.

Definition createClient (config : Config.AppConfig) (reg : registry)
    : registry * KomodoClient :=
  let reg := registerSensitivePattern (Config.apiKey config) reg in
  let reg := registerSensitivePattern (Config.apiSecret config) reg in
  (reg, {| endpoint := Config.url config;
           auth_type := u16 "api-key";
           key := Config.apiKey config;
           secret := Config.apiSecret config |}).

End Client.

(** ** What a registered tool looks like *)

Section Registered.

Context {ZodRawShape Handler : Type}.

(** The arguments of [server.registerTool] for a tool, property by
    property: every property the tool's annotations have is kept with its
    value; a [readOnlyHint] they lack is whether the tool's tier is
    [read-only], a [destructiveHint] they lack is [false]. *)
Definition registration
    (options : Tools.ToolRegistrationOptions ZodRawShape Handler)
    : jsstring * Tools.ToolConfig ZodRawShape * Handler :=
  let given : Tools.ToolAnnotations :=
    default ∅ (Tools.annotations options) in
  (Tools.name options,
   {| Tools.tc_description := Tools.description options;
      Tools.tc_inputSchema := Tools.inputSchema options;
      Tools.tc_annotations :=
        <[ "readOnlyHint"%string :=
             default
               (VBool (bool_decide (Tools.accessTier options = read_only)))
               (given !! "readOnlyHint"%string) ]>
        (<[ "destructiveHint"%string :=
              default (VBool false) (given !! "destructiveHint"%string) ]>
         given) |},
   Tools.handler options).

End Registered.

(** ** tools/*.ts: the tools each module registers

    Every module calls [registerTool] once per tool, in a fixed order,
    with a literal name, tier, category and annotations.  The description,
    the input schema and the handler of a tool play no part in what
    [registerTool] decides; they are taken as functions of the tool
    name. *)

Module Catalog.

Section Catalog.

Context {ZodRawShape Handler : Type}.
Variable describe : jsstring → jsstring.
Variable schema : jsstring → option ZodRawShape.
Variable handle : jsstring → Handler.

Abbreviation Options := (Tools.ToolRegistrationOptions ZodRawShape Handler).
Abbreviation Server := (Tools.McpServer ZodRawShape Handler).

Definition tool (name : string) (tier : AccessTier) (category : string)
    (readOnly destructive idempotent : bool) : Options := {|
  Tools.name := u16 name;
  Tools.description := describe (u16 name);
  Tools.accessTier := tier;
  Tools.category := u16 category;
  Tools.annotations := Some
    {[ "readOnlyHint"%string := VBool readOnly;
       "destructiveHint"%string := VBool destructive;
       "idempotentHint"%string := VBool idempotent ]};
  Tools.inputSchema := schema (u16 name);
  Tools.handler := handle (u16 name)
|}.

(** The tools of [registerServerTools], in the order of its calls of
    [registerTool]. *)
Definition serverTools : list Options :=
  [
    tool "komodo_list_servers" read_only "servers" true false true;
    tool "komodo_get_server" read_only "servers" true false true;
    tool "komodo_get_server_stats" read_only "servers" true false true;
    tool "komodo_get_server_info" read_only "servers" true false true;
    tool "komodo_prune_docker" read_execute "servers" false true true;
    tool "komodo_delete_docker_resource" read_execute "servers" false true false
  ].

Definition registerServerTools (server : Server) (config : Config.AppConfig) : Server :=
  Tools.registerAll config serverTools server.

(** The tools of [registerStackTools], in the order of its calls of
    [registerTool]. *)
Definition stackTools : list Options :=
  [
    tool "komodo_list_stacks" read_only "stacks" true false true;
    tool "komodo_get_stack" read_only "stacks" true false true;
    tool "komodo_get_stack_log" read_only "stacks" true false true;
    tool "komodo_inspect_stack_container" read_only "stacks" true false true;
    tool "komodo_list_stack_services" read_only "stacks" true false true;
    tool "komodo_get_stacks_summary" read_only "stacks" true false true;
    tool "komodo_deploy_stack" read_execute "stacks" false true false;
    tool "komodo_pull_stack" read_execute "stacks" false false true;
    tool "komodo_stack_lifecycle" read_execute "stacks" false true false;
    tool "komodo_destroy_stack" read_execute "stacks" false true false
  ].

Definition registerStackTools (server : Server) (config : Config.AppConfig) : Server :=
  Tools.registerAll config stackTools server.

(** The tools of [registerDeploymentTools], in the order of its calls of
    [registerTool]. *)
Definition deploymentTools : list Options :=
  [
    tool "komodo_list_deployments" read_only "deployments" true false true;
    tool "komodo_get_deployment" read_only "deployments" true false true;
    tool "komodo_get_deployment_log" read_only "deployments" true false true;
    tool "komodo_inspect_deployment_container" read_only "deployments" true false true;
    tool "komodo_get_deployments_summary" read_only "deployments" true false true;
    tool "komodo_deploy_deployment" read_execute "deployments" false true false;
    tool "komodo_pull_deployment" read_execute "deployments" false false true;
    tool "komodo_deployment_lifecycle" read_execute "deployments" false true false;
    tool "komodo_destroy_deployment" read_execute "deployments" false true false
  ].

Definition registerDeploymentTools (server : Server) (config : Config.AppConfig) : Server :=
  Tools.registerAll config deploymentTools server.

(** The tools of [registerContainerTools], in the order of its calls of
    [registerTool]. *)
Definition containerTools : list Options :=
  [
    tool "komodo_get_container_log" read_only "containers" true false true
  ].

Definition registerContainerTools (server : Server) (config : Config.AppConfig) : Server :=
  Tools.registerAll config containerTools server.

(** The tools of [registerBuildTools], in the order of its calls of
    [registerTool]. *)
Definition buildTools : list Options :=
  [
    tool "komodo_list_builds" read_only "builds" true false true;
    tool "komodo_get_build" read_only "builds" true false true;
    tool "komodo_run_build" read_execute "builds" false false false;
    tool "komodo_cancel_build" read_execute "builds" false false true
  ].

Definition registerBuildTools (server : Server) (config : Config.AppConfig) : Server :=
  Tools.registerAll config buildTools server.

(** The tools of [registerRepoTools], in the order of its calls of
    [registerTool]. *)
Definition repoTools : list Options :=
  [
    tool "komodo_list_repos" read_only "repos" true false true;
    tool "komodo_get_repo" read_only "repos" true false true;
    tool "komodo_repo_clone_pull" read_execute "repos" false true false
  ].

Definition registerRepoTools (server : Server) (config : Config.AppConfig) : Server :=
  Tools.registerAll config repoTools server.

(** The tools of [registerProcedureTools], in the order of its calls of
    [registerTool]. *)
Definition procedureTools : list Options :=
  [
    tool "komodo_list_procedures" read_only "procedures" true false true;
    tool "komodo_get_procedure" read_only "procedures" true false true;
    tool "komodo_run_procedure" read_execute "procedures" false true false
  ].

Definition registerProcedureTools (server : Server) (config : Config.AppConfig) : Server :=
  Tools.registerAll config procedureTools server.

(** The tools of [registerActionTools], in the order of its calls of
    [registerTool]. *)
Definition actionTools : list Options :=
  [
    tool "komodo_list_actions" read_only "actions" true false true;
    tool "komodo_get_action" read_only "actions" true false true;
    tool "komodo_run_action" read_execute "actions" false true false
  ].

Definition registerActionTools (server : Server) (config : Config.AppConfig) : Server :=
  Tools.registerAll config actionTools server.

(** The tools of [registerBuilderTools], in the order of its calls of
    [registerTool]. *)
Definition builderTools : list Options :=
  [
    tool "komodo_list_builders" read_only "builders" true false true;
    tool "komodo_get_builder" read_only "builders" true false true
  ].

Definition registerBuilderTools (server : Server) (config : Config.AppConfig) : Server :=
  Tools.registerAll config builderTools server.

(** The tools of [registerAlerterTools], in the order of its calls of
    [registerTool]. *)
Definition alerterTools : list Options :=
  [
    tool "komodo_list_alerters" read_only "alerters" true false true;
    tool "komodo_get_alerter" read_only "alerters" true false true
  ].

Definition registerAlerterTools (server : Server) (config : Config.AppConfig) : Server :=
  Tools.registerAll config alerterTools server.

(** The tools of [registerResourceSyncTools], in the order of its calls of
    [registerTool]. *)
Definition resourceSyncTools : list Options :=
  [
    tool "komodo_list_resource_syncs" read_only "resource-syncs" true false true;
    tool "komodo_get_resource_sync" read_only "resource-syncs" true false true;
    tool "komodo_trigger_sync" read_execute "resource-syncs" false true false
  ].

Definition registerResourceSyncTools (server : Server) (config : Config.AppConfig) : Server :=
  Tools.registerAll config resourceSyncTools server.

(** The tools of [registerUpdateTools], in the order of its calls of
    [registerTool]. *)
Definition updateTools : list Options :=
  [
    tool "komodo_list_updates" read_only "updates" true false true;
    tool "komodo_get_update" read_only "updates" true false true
  ].

Definition registerUpdateTools (server : Server) (config : Config.AppConfig) : Server :=
  Tools.registerAll config updateTools server.

(** The tools of [registerWriteTools], in the order of its calls of
    [registerTool]. *)
Definition writeTools : list Options :=
  [
    tool "komodo_write_resource" full "write" false true false
  ].

Definition registerWriteTools (server : Server) (config : Config.AppConfig) : Server :=
  Tools.registerAll config writeTools server.

(** tools/index.ts. *)
Definition registerAllTools (server : Server) (config : Config.AppConfig)
    : Server :=
  let server := registerServerTools server config in
  let server := registerStackTools server config in
  let server := registerDeploymentTools server config in
  let server := registerContainerTools server config in
  let server := registerBuildTools server config in
  let server := registerRepoTools server config in
  let server := registerProcedureTools server config in
  let server := registerActionTools server config in
  let server := registerBuilderTools server config in
  let server := registerAlerterTools server config in
  let server := registerResourceSyncTools server config in
  let server := registerUpdateTools server config in
  registerWriteTools server config.

(** All the tools, in the order in which [registerAllTools] reaches
    them. *)
Definition allTools : list Options :=
  serverTools ++ stackTools ++ deploymentTools ++ containerTools
  ++ buildTools ++ repoTools ++ procedureTools ++ actionTools
  ++ builderTools ++ alerterTools ++ resourceSyncTools ++ updateTools
  ++ writeTools.

End Catalog.

End Catalog.

(** ** tools/write.ts *)

Module Write.

Inductive ResourceType :=
| Stack | Deployment | Build | Repo | Procedure | Action | Alerter
| Builder | ResourceSync | Variable_.

(** The string each resource type is in the program. *)
Definition type_name (t : ResourceType) : jsstring :=
  match t with
  | Stack => u16 "Stack"
  | Deployment => u16 "Deployment"
  | Build => u16 "Build"
  | Repo => u16 "Repo"
  | Procedure => u16 "Procedure"
  | Action => u16 "Action"
  | Alerter => u16 "Alerter"
  | Builder => u16 "Builder"
  | ResourceSync => u16 "ResourceSync"
  | Variable_ => u16 "Variable"
  end.

Inductive WriteAction := create | update | delete.

Definition action_name (a : WriteAction) : jsstring :=
  match a with
  | create => u16 "create"
  | update => u16 "update"
  | delete => u16 "delete"
  end.

(** The first part of the operation names of an action. *)
Definition op_prefix (a : WriteAction) : jsstring :=
  match a with
  | create => u16 "Create"
  | update => u16 "Update"
  | delete => u16 "Delete"
  end.

(** The dispatch maps; a type without an entry gives [undefined]. *)
Definition createOps (t : ResourceType) : option jsstring :=
  match t with
  | Stack => Some (u16 "CreateStack")
  | Deployment => Some (u16 "CreateDeployment")
  | Build => Some (u16 "CreateBuild")
  | Repo => Some (u16 "CreateRepo")
  | Procedure => Some (u16 "CreateProcedure")
  | Action => Some (u16 "CreateAction")
  | Alerter => Some (u16 "CreateAlerter")
  | Builder => Some (u16 "CreateBuilder")
  | ResourceSync => Some (u16 "CreateResourceSync")
  | Variable_ => None
  end.

Definition updateOps (t : ResourceType) : option jsstring :=
  match t with
  | Stack => Some (u16 "UpdateStack")
  | Deployment => Some (u16 "UpdateDeployment")
  | Build => Some (u16 "UpdateBuild")
  | Repo => Some (u16 "UpdateRepo")
  | Procedure => Some (u16 "UpdateProcedure")
  | Action => Some (u16 "UpdateAction")
  | Alerter => Some (u16 "UpdateAlerter")
  | Builder => Some (u16 "UpdateBuilder")
  | ResourceSync => Some (u16 "UpdateResourceSync")
  | Variable_ => None
  end.

Definition deleteOps (t : ResourceType) : option jsstring :=
  match t with
  | Stack => Some (u16 "DeleteStack")
  | Deployment => Some (u16 "DeleteDeployment")
  | Build => Some (u16 "DeleteBuild")
  | Repo => Some (u16 "DeleteRepo")
  | Procedure => Some (u16 "DeleteProcedure")
  | Action => Some (u16 "DeleteAction")
  | Alerter => Some (u16 "DeleteAlerter")
  | Builder => Some (u16 "DeleteBuilder")
  | ResourceSync => Some (u16 "DeleteResourceSync")
  | Variable_ => Some (u16 "DeleteVariable")
  end.

(** What a write call resolves to, as far as the formatters read it:
    [_id] is [resource._id?.$oid]. *)
Record Resource := {
  _id : option jsstring;
  name : jsstring;
  description : option jsstring
}.

(** core/formatters.ts: the write formatters. *)
Definition formatResourceCreated (resourceType : jsstring)
    (resource : Resource) : jsstring :=
  let id := _id resource in
  let lines :=
    [ if bool_decide (resourceType = u16 "Variable") then
        u16 "Created " ++ resourceType ++ u16 " '" ++ name resource
        ++ u16 "'"
      else if negb (Config.falsy id) then
        u16 "Created " ++ resourceType ++ u16 " '" ++ name resource
        ++ u16 "' (ID: " ++ default [] id ++ u16 ")"
      else
        u16 "Created " ++ resourceType ++ u16 " '" ++ name resource
        ++ u16 "'" ]
    ++ (if negb (Config.falsy (description resource))
        then [u16 "Description: " ++ default [] (description resource)]
        else [])
    ++ [u16 "Use the corresponding get tool to view full details."] in
  join [10%N] lines.

Definition formatResourceUpdated (resourceType : jsstring)
    (resource : Resource) : jsstring :=
  join [10%N]
    [ u16 "Updated " ++ resourceType ++ u16 " '" ++ name resource ++ u16 "'";
      u16 "Use the corresponding get tool to verify changes." ].

Definition formatResourceDeleted (resourceType : jsstring)
    (resource : Resource) : jsstring :=
  u16 "Deleted " ++ resourceType ++ u16 " '" ++ name resource ++ u16 "'".

(** A call of [client.write]: the operation and its parameters. *)
Record Call := { op : option jsstring; params : value }.

(** The promise a call returns resolves, or rejects with any value. *)
Inductive outcome :=
| Resolves (r : Resource)
| Rejects (error : value).

(** The remote client: what a call gives may depend on the calls made
    before it. *)
Definition KomodoClient : Type := list Call → Call → outcome.

(** An awaited computation: it has a value, or it threw. *)
Inductive attempt (A : Type) :=
| Done (a : A)
| Caught (error : value).

Arguments Done {A} a.
Arguments Caught {A} error.

(** Computations that call the client: the calls made so far are threaded
    through. *)
Definition Run (A : Type) : Type := list Call → list Call * attempt A.

#[global] Instance run_ret : MRet Run := λ A a log, (log, Done a).

#[global] Instance run_bind : MBind Run := λ A B k m log,
  match m log with
  | (log', Done a) => k a log'
  | (log', Caught e) => (log', Caught e)
  end.

(** [await client.write(op, params)]. *)
Definition write (client : KomodoClient) (op : option jsstring)
    (params : value) : Run Resource := λ log,
  let call := {| op := op; params := params |} in
  (log ++ [call],
   match client log call with
   | Resolves r => Done r
   | Rejects e => Caught e
   end).

#[global] Instance completion_fmap : FMap completion := λ A B f c,
  match c with
  | Returns a => Returns (f a)
  | Throws e => Throws e
  end.

(** What a handler returns. *)
Record ToolResponse := {
  content : list TextContent;
  isError : option bool
}.

Definition text_response (t : jsstring) : ToolResponse :=
  {| content := [ {| type := u16 "text"; text := t |} ]; isError := None |}.

Definition error_response (t : jsstring) : ToolResponse :=
  {| content := [ {| type := u16 "text"; text := t |} ];
     isError := Some true |}.

(** [config.key] on the object [config], whose properties are listed with
    distinct keys. *)
Definition get (config : list (jsstring * value)) (key : jsstring) : value :=
  match list_find (λ kv, bool_decide (kv.1 = key)) config with
  | Some (_, (_, v)) => v
  | None => VUndefined
  end.

(** [config?.key]. *)
Definition optional_get (config : option (list (jsstring * value)))
    (key : jsstring) : value :=
  match config with
  | Some config => get config key
  | None => VUndefined
  end.

(** [v !== undefined]. *)
Definition defined (v : value) : bool :=
  match v with
  | VUndefined => false
  | _ => true
  end.

(** [a || b] on optional strings. *)
Definition or_else (a b : option jsstring) : option jsstring :=
  if Config.falsy a then b else a.

(** The optional [config] argument as a value. *)
Definition config_value (config : option (list (jsstring * value))) : value :=
  match config with
  | Some config => VObject config
  | None => VUndefined
  end.

Section Handlers.

Variable client : KomodoClient.

Definition handleCreate (resourceType : ResourceType)
    (name : option jsstring) (config : option (list (jsstring * value)))
    : Run ToolResponse :=
  match name with
  | None | Some [] =>
      mret (error_response
              (u16 "Error: 'name' is required when creating a "
               ++ type_name resourceType ++ u16 "."))
  | Some name =>
      match resourceType with
      | Variable_ =>
          result ← write client (Some (u16 "CreateVariable"))
            (VObject [ (u16 "name", VString name);
                       (u16 "value", optional_get config (u16 "value"));
                       (u16 "description",
                        optional_get config (u16 "description"));
                       (u16 "is_secret",
                        optional_get config (u16 "is_secret")) ]);
          mret (text_response
                  (formatResourceCreated (type_name resourceType)
                     {| _id := _id result; name := name;
                        description := description result |}))
      | _ =>
          result ← write client (createOps resourceType)
            (VObject [ (u16 "name", VString name);
                       (u16 "config", config_value config) ]);
          mret (text_response
                  (formatResourceCreated (type_name resourceType) result))
      end
  end.

(** One of the three conditional writes of a [Variable] update. *)
Definition update_field (varName : jsstring)
    (config : list (jsstring * value)) (operation field : string)
    : Run unit :=
  if defined (get config (u16 field)) then
    _ ← write client (Some (u16 operation))
      (VObject [ (u16 "name", VString varName);
                 (u16 field, get config (u16 field)) ]);
    mret tt
  else mret tt.

Definition handleUpdate (resourceType : ResourceType)
    (id name : option jsstring) (config : option (list (jsstring * value)))
    : Run ToolResponse :=
  match config with
  | None =>
      mret (error_response
              (u16 "Error: 'config' is required when updating a "
               ++ type_name resourceType ++ u16 "."))
  | Some config =>
      match resourceType with
      | Variable_ =>
          match or_else name id with
          | None | Some [] =>
              mret (error_response
                (u16 "Error: 'name' (or 'id') is required when updating a Variable."))
          | Some varName =>
              _ ← update_field varName config "UpdateVariableValue" "value";
              _ ← update_field varName config "UpdateVariableDescription"
                    "description";
              _ ← update_field varName config "UpdateVariableIsSecret"
                    "is_secret";
              mret (text_response
                      (formatResourceUpdated (type_name resourceType)
                         {| _id := None; name := varName;
                            description := None |}))
          end
      | _ =>
          match id with
          | None | Some [] =>
              mret (error_response
                      (u16 "Error: 'id' is required when updating a "
                       ++ type_name resourceType ++ u16 "."))
          | Some id =>
              result ← write client (updateOps resourceType)
                (VObject [ (u16 "id", VString id);
                           (u16 "config", VObject config) ]);
              mret (text_response
                      (formatResourceUpdated (type_name resourceType)
                         result))
          end
      end
  end.

Definition handleDelete (resourceType : ResourceType)
    (id name : option jsstring) : Run ToolResponse :=
  match resourceType with
  | Variable_ =>
      match or_else name id with
      | None | Some [] =>
          mret (error_response
            (u16 "Error: 'name' (or 'id') is required when deleting a Variable."))
      | Some varName =>
          result ← write client (Some (u16 "DeleteVariable"))
            (VObject [ (u16 "name", VString varName) ]);
          mret (text_response
                  (formatResourceDeleted (type_name resourceType)
                     {| _id := _id result; name := varName;
                        description := description result |}))
      end
  | _ =>
      match id with
      | None | Some [] =>
          mret (error_response
                  (u16 "Error: 'id' is required when deleting a "
                   ++ type_name resourceType ++ u16 "."))
      | Some id =>
          result ← write client (deleteOps resourceType)
            (VObject [ (u16 "id", VString id) ]);
          mret (text_response
                  (formatResourceDeleted (type_name resourceType) result))
      end
  end.

(** The context the handler gives to [handleKomodoError]. *)
Definition error_context (action : WriteAction)
    (resource_type : ResourceType) (name id : option jsstring) : jsstring :=
  action_name action ++ u16 " " ++ type_name resource_type
  ++ (if Config.falsy name then []
      else u16 " '" ++ default [] name ++ u16 "'")
  ++ (if Config.falsy id then []
      else u16 " (" ++ default [] id ++ u16 ")").

(** An error response of [handleKomodoError], as a handler returns it. *)
Definition of_error (r : McpErrorResponse) : ToolResponse :=
  match r with
  | Build_McpErrorResponse c e => {| content := c; isError := Some e |}
  end.

(** The handler of [komodo_write_resource]: the calls made so far go in,
    the calls made and the completion of the handler come out. *)
Definition handler (reg : registry) (resource_type : ResourceType)
    (action : WriteAction) (name id : option jsstring)
    (writeConfig : option (list (jsstring * value)))
    (log : list Call) : list Call * completion ToolResponse :=
  let body :=
    match action with
    | create => handleCreate resource_type name writeConfig
    | update => handleUpdate resource_type id name writeConfig
    | delete => handleDelete resource_type id name
    end in
  match body log with
  | (log', Done response) => (log', Returns response)
  | (log', Caught error) =>
      (log',
       of_error <$>
         handleKomodoError reg
           (error_context action resource_type name id) error)
  end.

End Handlers.

End Write.
(** ** Lemmas on strings *)

Section StringFacts.

Lemma starts_with_spec (a b : jsstring) :
  starts_with a b = true ↔ ∃ r, b = a ++ r.
Proof.
  revert b; induction a as [|x a IH]; intros b; simpl.
  - split; eauto.
  - destruct b as [|y b].
    + split; [discriminate | intros [r Hr]; discriminate].
    + rewrite andb_true_iff, N.eqb_eq, IH. split.
      * intros [-> [r ->]]. eauto.
      * intros [r Hr]. injection Hr as -> ->. eauto.
Qed.

Lemma starts_with_app (a r : jsstring) : starts_with a (a ++ r) = true.
Proof. apply starts_with_spec; eauto. Qed.

Lemma includes_spec (s p : jsstring) : includes s p = true ↔ occurs p s.
Proof.
  induction s as [|c s IH]; simpl.
  - rewrite orb_false_r, starts_with_spec. split.
    + intros [r Hr]. exists [], r. exact Hr.
    + intros [a [b Hab]]. destruct a; [eauto | discriminate].
  - rewrite orb_true_iff, starts_with_spec, IH. split.
    + intros [[r Hr] | [a [b Hab]]].
      * exists [], r. exact Hr.
      * exists (c :: a), b. simpl. by rewrite Hab.
    + intros [a [b Hab]]. destruct a as [|x a]; simpl in Hab.
      * left. eauto.
      * right. injection Hab as _ ->. by exists a, b.
Qed.

Lemma occurs_app_l (p l r : jsstring) : occurs p l → occurs p (l ++ r).
Proof.
  intros [a [b ->]]. exists a, (b ++ r). by rewrite <- !app_assoc.
Qed.

Lemma occurs_app_r (p l r : jsstring) : occurs p r → occurs p (l ++ r).
Proof.
  intros [a [b ->]]. exists (l ++ a), b. by rewrite <- !app_assoc.
Qed.

Lemma compat_common (a b x y : jsstring) :
  a ++ x = b ++ y → compat a b = true.
Proof.
  revert b; induction a as [|c a IH]; intros [|d b] H; simpl; try done.
  simpl in H. injection H as -> H. rewrite N.eqb_refl. simpl. eauto.
Qed.

Lemma tails_ne_suffix (l k : jsstring) : k ≠ [] → In k (tails_ne (l ++ k)).
Proof.
  intros Hk. induction l as [|c l IH]; simpl.
  - destruct k; [done | simpl; auto].
  - auto.
Qed.

(** An occurrence of [p] in a text with [t] inserted lies to the left of
    [t], to its right, or over it. *)
Lemma occurs_insert (p t l r : jsstring) :
  occurs p (l ++ t ++ r) → occurs p l ∨ occurs p r ∨ overlaps p t = true.
Proof.
  intros [a [b H]].
  apply app_eq_app in H as [k [[-> H] | [-> H]]].
  - symmetry in H. apply app_eq_app in H as [k2 [[-> H] | [-> H]]].
    + left. by exists a, k2.
    + destruct k2 as [|c k2].
      * left. exists a, []. by rewrite !app_nil_r.
      * right; right. unfold overlaps. apply orb_true_iff. left.
        apply existsb_exists. exists (c :: k2). split.
        -- by apply tails_ne_suffix.
        -- symmetry in H. by apply compat_common in H.
  - apply app_eq_app in H as [k2 [[-> H] | [-> H]]].
    + destruct k2 as [|c k2].
      * right; left. exists [], b. done.
      * right; right. unfold overlaps. apply orb_true_iff. right.
        apply existsb_exists. exists (c :: k2). split.
        -- by apply tails_ne_suffix.
        -- by apply compat_common in H.
    + right; left. by exists k2, b.
Qed.

(** Unfolding the scan. *)
Lemma scan_skip m out k (s : jsstring) :
  scan m out k s = scan m out 0 (drop k s).
Proof.
  revert k; induction s as [|c s IH]; intros [|k]; simpl; done.
Qed.

Lemma scan_hit m out n (s : jsstring) :
  proper m → m s = Some n →
  scan m out 0 s = out ++ scan m out 0 (drop n s).
Proof.
  intros Hp Hm. destruct (Hp _ _ Hm) as [Hn Hl].
  destruct s as [|c s]; simpl in *; [lia|].
  rewrite Hm. destruct n as [|n]; [lia|]. simpl.
  by rewrite scan_skip.
Qed.

Lemma scan_miss m out c (s : jsstring) :
  m (c :: s) = None → scan m out 0 (c :: s) = c :: scan m out 0 s.
Proof. intros Hm. simpl. by rewrite Hm. Qed.

Lemma literal_match_proper (p : jsstring) :
  p ≠ [] → proper (literal_match p).
Proof.
  intros Hp s n. unfold literal_match.
  destruct (starts_with p s) eqn:E; [|done].
  intros [= <-]. apply starts_with_spec in E as [r ->].
  rewrite length_app. destruct p; [done | simpl; lia].
Qed.

(** Induction along the scan: at each index the matcher misses and the
    scan moves on by one unit, or it hits and the scan moves on by the
    length of the match. *)
Lemma scan_ind m (Hp : proper m) (P : jsstring → Prop) :
  P [] →
  (∀ c s, m (c :: s) = None → P s → P (c :: s)) →
  (∀ s n, m s = Some n → P (drop n s) → P s) →
  ∀ s, P s.
Proof.
  intros Hnil Hmiss Hhit s.
  remember (length s) as k eqn:Hk.
  revert s Hk. induction k as [k IH] using lt_wf_ind. intros s ->.
  destruct s as [|c s]; [done|].
  destruct (m (c :: s)) as [n|] eqn:E.
  - apply (Hhit _ n E). destruct (Hp _ _ E) as [Hn Hl].
    eapply IH; [|done]. rewrite length_drop. simpl in *. lia.
  - apply Hmiss; [done|]. eapply IH; [|done]. simpl. lia.
Qed.


Lemma skip_keep_while p (s : jsstring) :
  keep_while p s ++ skip_while p s = s.
Proof. induction s as [|c s IH]; simpl; [done|]. destruct (p c); simpl; congruence. Qed.

Lemma skip_while_head p (c : N) (s v : jsstring) :
  skip_while p s = c :: v → p c = false.
Proof.
  induction s as [|d s IH]; simpl; [done|].
  destruct (p d) eqn:E; [done|]. by intros [= <- _].
Qed.

Lemma strip_lit_length (lit s r : jsstring) :
  strip_lit lit s = Some r → length s = length lit + length r.
Proof.
  revert s; induction lit as [|l lit IH]; intros [|c s]; simpl; try done.
  - by intros [= <-].
  - by intros [= <-].
  - destruct (ci_eq l c); [|done]. intros H. apply IH in H. lia.
Qed.

Lemma header_match_proper (name : jsstring) : proper (header_match name).
Proof.
  intros s n. unfold header_match.
  destruct (strip_lit name s) as [r|] eqn:E; [|done].
  apply strip_lit_length in E.
  pose proof (skip_keep_while is_space r) as Hr.
  destruct (skip_while is_space r) as [|c v] eqn:Ev; [done|].
  intros [= <-].
  pose proof (skip_while_head _ _ _ _ Ev) as Hc.
  pose proof (skip_keep_while non_space (c :: v)) as Hv.
  apply (f_equal length) in Hr, Hv. rewrite length_app in Hr, Hv.
  simpl in *. unfold non_space in *. rewrite Hc in *. simpl in *. lia.
Qed.

End StringFacts.

(** ** The sanitizer leaves no registered pattern behind *)

Section NoSecret.

Variable p : jsstring.

(** A scan that writes a text not overlapping [p] does not create an
    occurrence of [p]. *)
Lemma scan_keeps_clear m out :
  proper m → overlaps p out = false →
  ∀ s pre, ¬ occurs p (pre ++ s) → ¬ occurs p (pre ++ scan m out 0 s).
Proof.
  intros Hm Hov. induction s as [| c s Hmiss IH | s n Hhit IH]
    using (scan_ind m Hm); intros pre Hclear.
  - done.
  - rewrite scan_miss by done.
    replace (pre ++ c :: scan m out 0 s)
      with ((pre ++ [c]) ++ scan m out 0 s) by by rewrite <- app_assoc.
    apply IH. by rewrite <- app_assoc.
  - rewrite (scan_hit m out n) by done.
    intros Hocc. apply occurs_insert in Hocc as [H | [H | H]].
    + apply Hclear. by apply occurs_app_l.
    + revert H. apply (IH []). simpl. intros H. apply Hclear.
      apply occurs_app_r. rewrite <- (take_drop n s). by apply occurs_app_r.
    + congruence.
Qed.

Hypothesis p_nonempty : p ≠ [].

(** Replacing every occurrence of [p] by a text that does not overlap
    [p] leaves no occurrence of [p]. *)
Lemma replaceAll_clears_from out :
  overlaps p out = false →
  ∀ s pre,
    (∀ a b, pre ++ s = a ++ p ++ b → length pre ≤ length a) →
    ¬ occurs p (pre ++ replaceAll p out s).
Proof.
  intros Hov. unfold replaceAll. destruct p as [|x q] eqn:Ep; [done|].
  rewrite <- Ep in *.
  assert (Hm : proper (literal_match p)) by by apply literal_match_proper.
  induction s as [| c s Hmiss IH | s n Hhit IH]
    using (scan_ind (literal_match p) Hm); intros pre Hinv.
  - simpl. rewrite app_nil_r in *. intros [a [b Hab]].
    pose proof (Hinv a b Hab) as Hle. apply (f_equal length) in Hab.
    rewrite !length_app in Hab. rewrite Ep in Hab. simpl in Hab. lia.
  - rewrite scan_miss by done.
    replace (pre ++ c :: scan (literal_match p) out 0 s)
      with ((pre ++ [c]) ++ scan (literal_match p) out 0 s)
      by by rewrite <- app_assoc.
    apply IH. intros a b Hab. rewrite <- app_assoc in Hab. simpl in Hab.
    pose proof (Hinv a b Hab) as Hle. rewrite length_app. simpl.
    destruct (decide (length pre = length a)) as [Heq|]; [|lia].
    exfalso. apply app_inj_1 in Hab as [_ Hab]; [|done].
    unfold literal_match in Hmiss. rewrite Hab, starts_with_app in Hmiss.
    done.
  - rewrite (scan_hit _ out n) by done.
    intros Hocc. apply occurs_insert in Hocc as [H | [H | H]].
    + destruct H as [a [b Hab]].
      assert (Hle : length pre ≤ length a).
      { apply (Hinv a (b ++ s)). rewrite Hab. by rewrite <- !app_assoc. }
      apply (f_equal length) in Hab. rewrite !length_app in Hab.
      rewrite Ep in Hab. simpl in Hab. lia.
    + revert H. apply (IH []). simpl. intros; lia.
    + congruence.
Qed.

Lemma replaceAll_clears out (s : jsstring) :
  overlaps p out = false → ¬ occurs p (replaceAll p out s).
Proof.
  intros Hov. apply (replaceAll_clears_from out Hov s []).
  simpl. intros; lia.
Qed.

End NoSecret.

(** ** [sanitizeMessage] and the registered patterns *)

Lemma registerSensitivePattern_elem (q x : jsstring) (reg : registry) :
  In x (registerSensitivePattern q reg) ↔ In x reg ∨ (x = q ∧ q ≠ []).
Proof.
  unfold registerSensitivePattern. destruct q as [|c q].
  - split; [auto | intros [H | [_ H]]; done].
  - rewrite in_app_iff. simpl. split.
    + intros [H | [H | []]]; [auto | right; by split].
    + intros [H | [H _]]; auto.
Qed.

Lemma registered_from_elem (secrets : list jsstring) (reg : registry) x :
  In x (fold_left (λ reg p, registerSensitivePattern p reg) secrets reg)
  ↔ In x reg ∨ (In x secrets ∧ x ≠ []).
Proof.
  revert reg; induction secrets as [|q secrets IH]; intros reg; simpl.
  - split; [auto | intros [H | [[] _]]; done].
  - rewrite IH, registerSensitivePattern_elem. split.
    + intros [[H | [-> H]] | [H1 H2]]; auto.
    + intros [H | [[<- | H1] H2]]; auto.
Qed.

(** The registry holds exactly the non-empty strings registered. *)
Lemma registered_elem (secrets : list jsstring) x :
  In x (registered secrets) ↔ In x secrets ∧ x ≠ [].
Proof.
  unfold registered. rewrite registered_from_elem. unfold SENSITIVE_PATTERNS.
  simpl. split; [intros [[] | H]; done | auto].
Qed.

Lemma redact_patterns_snoc (reg : registry) q (s : jsstring) :
  redact_patterns (reg ++ [q]) s
  = replaceAll q REDACTED (redact_patterns reg s).
Proof. unfold redact_patterns. by rewrite fold_left_app. Qed.

Lemma clear_of_written_elem (reg : registry) p w :
  clear_of_written reg = true → In p reg → In w written_texts →
  overlaps p w = false.
Proof.
  unfold clear_of_written. rewrite forallb_forall. intros H Hp Hw.
  specialize (H p Hp). rewrite forallb_forall in H.
  specialize (H w Hw). by apply negb_true_iff in H.
Qed.

Lemma clear_of_written_app (r1 r2 : registry) :
  clear_of_written (r1 ++ r2)
  = clear_of_written r1 && clear_of_written r2.
Proof. unfold clear_of_written. apply forallb_app. Qed.

(** After the loop over the registry no registered pattern occurs. *)
Lemma redact_patterns_clear (reg : registry) (s : jsstring) p :
  (∀ q, In q reg → q ≠ []) →
  clear_of_written reg = true →
  In p reg → ¬ occurs p (redact_patterns reg s).
Proof.
  induction reg as [|q reg IH] using rev_ind; [done|].
  intros Hne Hclear Hp. rewrite redact_patterns_snoc.
  assert (Hq : q ≠ []) by (apply Hne, in_app_iff; simpl; auto).
  assert (Hpo : overlaps p REDACTED = false).
  { apply (clear_of_written_elem _ _ _ Hclear Hp). simpl; auto. }
  rewrite clear_of_written_app in Hclear.
  apply andb_true_iff in Hclear as [Hclear _].
  destruct (decide (p = q)) as [->|Hpq].
  - by apply replaceAll_clears.
  - apply in_app_iff in Hp as [Hp | [Hp | []]]; [|done].
    unfold replaceAll. destruct q as [|c q]; [done|].
    apply (scan_keeps_clear p _ _ (literal_match_proper _ Hq) Hpo _ []).
    simpl. apply IH; [|done..]. intros q' Hq'. apply Hne, in_app_iff. auto.
Qed.

Lemma redact_header_keeps_clear p name (s : jsstring) :
  overlaps p (header_out name) = false →
  ¬ occurs p s → ¬ occurs p (redact_header name s).
Proof.
  intros Hov Hs.
  by apply (scan_keeps_clear p _ _ (header_match_proper name) Hov s []).
Qed.

(** For a registry of non-empty patterns none of which overlaps a written
    text, the output of [sanitizeMessage] is free of every pattern. *)
Lemma sanitizeMessage_clear (reg : registry) (M p : jsstring) :
  (∀ q, In q reg → q ≠ []) →
  clear_of_written reg = true →
  In p reg → ¬ occurs p (sanitizeMessage reg M).
Proof.
  intros Hne Hclear Hp. unfold sanitizeMessage, redact_headers.
  pose proof (λ w, clear_of_written_elem _ p w Hclear Hp) as Hw.
  apply redact_header_keeps_clear; [apply Hw; simpl; auto|].
  apply redact_header_keeps_clear; [apply Hw; simpl; auto|].
  apply redact_header_keeps_clear; [apply Hw; simpl; auto|].
  by apply redact_patterns_clear.
Qed.

(** Replacing a pattern that does not occur changes nothing. *)
Lemma replaceAll_absent (p out s : jsstring) :
  p ≠ [] → ¬ occurs p s → replaceAll p out s = s.
Proof.
  intros Hp. unfold replaceAll. destruct p as [|x q] eqn:Ep; [done|].
  rewrite <- Ep. clear Ep Hp.
  induction s as [|c s IH]; [done|]. intros Hno.
  rewrite scan_miss.
  - f_equal. apply IH. intros [a [b ->]]. apply Hno.
    by exists (c :: a), b.
  - unfold literal_match. destruct (starts_with p (c :: s)) eqn:E; [|done].
    apply starts_with_spec in E as [r Hr]. exfalso. apply Hno.
    by exists [], r.
Qed.

Lemma redact_patterns_absent (reg : registry) (s : jsstring) :
  (∀ q, In q reg → q ≠ [] ∧ ¬ occurs q s) → redact_patterns reg s = s.
Proof.
  unfold redact_patterns. induction reg as [|q reg IH]; [done|].
  intros H. simpl. destruct (H q) as [Hq Hno]; [simpl; auto|].
  rewrite replaceAll_absent by done. apply IH.
  intros q' Hq'. apply H. simpl. auto.
Qed.

(** ** The header replacements are idempotent *)

Section HeaderFacts.

Lemma wordy_range l c :
  wordy l = true → ci_eq l c = true → (45 ≤ c ≤ 122)%N.
Proof.
  unfold wordy, ci_eq. intros Hl Hc. apply N.eqb_eq in Hc.
  rewrite !orb_true_iff, !andb_true_iff, !N.eqb_eq, !N.leb_le in Hl.
  unfold canonicalize in Hc.
  destruct (N.leb_spec 97 l), (N.leb_spec l 122),
    (N.leb_spec 97 c), (N.leb_spec c 122); simpl in Hc; lia.
Qed.

Lemma range_not_space c : (45 ≤ c ≤ 122)%N → is_space c = false.
Proof.
  intros Hc. unfold is_space.
  repeat (apply orb_false_intro);
    try (apply N.eqb_neq; lia).
  - apply andb_false_iff. right. apply N.leb_gt. lia.
  - apply andb_false_iff. left. apply N.leb_gt. lia.
Qed.

Lemma wordy_not_space l c :
  wordy l = true → ci_eq l c = true → is_space c = false.
Proof. intros Hl Hc. eapply range_not_space, wordy_range; eauto. Qed.

Lemma ci_eq_refl c : ci_eq c c = true.
Proof. unfold ci_eq. apply N.eqb_refl. Qed.

Lemma strip_lit_self (lit z : jsstring) : strip_lit lit (lit ++ z) = Some z.
Proof.
  induction lit as [|l lit IH]; simpl; [done|]. by rewrite ci_eq_refl.
Qed.

Lemma strip_lit_drop (lit s r : jsstring) :
  strip_lit lit s = Some r → s = take (length lit) s ++ r.
Proof.
  revert s; induction lit as [|l lit IH]; intros [|c s]; simpl; try done.
  - by intros [= <-].
  - by intros [= <-].
  - destruct (ci_eq l c); [|done]. intros H. f_equal. by apply IH.
Qed.

(** Whether the literal matches depends on as many units as it has. *)
Lemma strip_lit_prefix (lit w x y r : jsstring) :
  length w = length lit →
  strip_lit lit (w ++ x) = Some r → strip_lit lit (w ++ y) = Some y.
Proof.
  revert w; induction lit as [|l lit IH]; intros [|c w]; simpl; try done.
  intros [= Hl]. destruct (ci_eq l c); [|done]. by apply IH.
Qed.

Lemma ci_clash_strip (lit u x : jsstring) :
  ci_clash lit u = true → strip_lit lit (u ++ x) = None.
Proof.
  revert u; induction lit as [|l lit IH]; intros [|c u]; simpl; try done.
  destruct (ci_eq l c); [apply IH | done].
Qed.

Lemma header_match_strip_none (name s : jsstring) :
  strip_lit name s = None → header_match name s = None.
Proof. unfold header_match. by intros ->. Qed.

Lemma ci_clash_header (name u x : jsstring) :
  ci_clash name u = true → header_match name (u ++ x) = None.
Proof. intros H. by apply header_match_strip_none, ci_clash_strip. Qed.

(** A header is not matched at white space. *)
Lemma header_match_space (name : jsstring) c s :
  head_check name = true → is_space c = true →
  header_match name (c :: s) = None.
Proof.
  intros Hw Hc. apply header_match_strip_none.
  destruct name as [|l name]; [done|]. simpl in *.
  apply andb_true_iff in Hw as [Hl _].
  destruct (ci_eq l c) eqn:E; [|done].
  pose proof (wordy_not_space _ _ Hl E). congruence.
Qed.


Lemma redact_header_miss name c (s : jsstring) :
  header_match name (c :: s) = None →
  redact_header name (c :: s) = c :: redact_header name s.
Proof. apply scan_miss. Qed.

Lemma redact_header_hit name n (s : jsstring) :
  header_match name s = Some n →
  redact_header name s = header_out name ++ redact_header name (drop n s).
Proof. apply scan_hit, header_match_proper. Qed.

Lemma skip_while_ends (x : jsstring) : ends_word (skip_while non_space x).
Proof.
  induction x as [|c x IH]; simpl; [done|].
  unfold non_space at 1. destruct (is_space c) eqn:E; simpl; done.
Qed.

Lemma header_match_inv (name s : jsstring) n :
  header_match name s = Some n →
  ∃ r, strip_lit name s = Some r ∧ skip_while is_space r ≠ []
       ∧ drop n s = skip_while non_space (skip_while is_space r).
Proof.
  unfold header_match.
  destruct (strip_lit name s) as [r|] eqn:E; [|done].
  destruct (skip_while is_space r) as [|c v] eqn:Ev; [done|].
  intros [= <-]. exists r. rewrite Ev. split; [done|]. split; [done|].
  change (if non_space c then c :: keep_while non_space v else [])
    with (keep_while non_space (c :: v)).
  pose proof (strip_lit_length _ _ _ E) as Hlen.
  apply strip_lit_drop in E.
  assert (HA : length (take (length name) s) = length name)
    by (rewrite length_take; lia).
  remember (take (length name) s) as A eqn:EA. clear EA.
  pose proof (skip_keep_while is_space r) as Hr. rewrite Ev in Hr.
  pose proof (skip_keep_while non_space (c :: v)) as Hv.
  remember (keep_while is_space r) as K eqn:EK. clear EK.
  remember (keep_while non_space (c :: v)) as K2 eqn:EK2. clear EK2.
  remember (skip_while non_space (c :: v)) as R2 eqn:ER2. clear ER2.
  subst s r. rewrite <- Hv. rewrite !app_assoc. apply drop_app_length'.
  rewrite !length_app. lia.
Qed.

Lemma header_match_ends (name s : jsstring) n :
  header_match name s = Some n → ends_word (drop n s).
Proof.
  intros H. apply header_match_inv in H as [r [_ [_ ->]]].
  apply skip_while_ends.
Qed.

Lemma header_match_none_inv (name s r : jsstring) :
  strip_lit name s = Some r → header_match name s = None →
  skip_while is_space r = [].
Proof.
  unfold header_match. intros ->.
  by destruct (skip_while is_space r).
Qed.

(** What [replace] has written is matched again, as a whole. *)
Lemma header_match_out (name y : jsstring) :
  ends_word y →
  header_match name (header_out name ++ y)
  = Some (length (header_out name)).
Proof.
  intros Hy. unfold header_match, header_out.
  rewrite <- app_assoc, strip_lit_self.
  assert (Hk : keep_while non_space y = []).
  { destruct y as [|c y]; [done|]. simpl in *. unfold non_space.
    by rewrite Hy. }
  unfold REDACTED, u16. simpl. rewrite Hk. f_equal.
  rewrite !length_app. simpl. lia.
Qed.

Section Other.

Variable other : jsstring.
Hypothesis other_head : head_check other = true.

Lemma redact_spaces (x : jsstring) :
  skip_while is_space x = [] → redact_header other x = x.
Proof.
  induction x as [|c x IH]; simpl; [done|].
  destruct (is_space c) eqn:E; [|done]. intros H.
  rewrite redact_header_miss by by apply header_match_space.
  by rewrite IH.
Qed.

Lemma redact_ends_word (x : jsstring) :
  ends_word x → ends_word (redact_header other x).
Proof.
  destruct x as [|c x]; [done|]. simpl. intros H.
  rewrite redact_header_miss by by apply header_match_space.
  done.
Qed.

Lemma redact_copy (w x : jsstring) :
  inner_check other w = true →
  redact_header other (w ++ x) = w ++ redact_header other x.
Proof.
  unfold inner_check. induction w as [|c w IH]; [done|].
  simpl. intros H. apply andb_true_iff in H as [H1 H2].
  assert (Hm : header_match other (c :: w ++ x) = None)
    by apply (ci_clash_header other (c :: w) x H1).
  rewrite redact_header_miss by done. by rewrite IH.
Qed.

End Other.

Section Settled.

Variable name : jsstring.

Lemma settled_drop k (t : jsstring) :
  settled name t → settled name (drop k t).
Proof.
  revert k; induction t as [|c t IH]; intros [|k]; simpl; try done.
  intros [_ H]. by apply IH.
Qed.

Lemma settled_app (w x : jsstring) :
  inner_check name w = true → settled name x → settled name (w ++ x).
Proof.
  unfold inner_check. induction w as [|c w IH]; [done|].
  simpl. intros H Hx. apply andb_true_iff in H as [H1 H2].
  split; [|by apply IH].
  intros n Hn. pose proof (ci_clash_header name (c :: w) x H1) as Hm.
  simpl in Hm. congruence.
Qed.

(** A settled text is a fixed point of the replacement. *)
Lemma settled_fixed (t : jsstring) :
  settled name t → redact_header name t = t.
Proof.
  induction t as [| c t Hmiss IH | t n Hhit IH]
    using (scan_ind _ (header_match_proper name)); intros Hs.
  - done.
  - rewrite redact_header_miss by done. destruct Hs as [_ Hs].
    f_equal. by apply IH.
  - rewrite (redact_header_hit _ n) by done.
    rewrite IH by by apply settled_drop.
    destruct t as [|c t].
    { destruct (header_match_proper name _ _ Hhit); simpl in *; lia. }
    destruct Hs as [Hat _]. rewrite <- (Hat _ Hhit). apply take_drop.
Qed.

End Settled.


Lemma redact_header_nil (name : jsstring) : redact_header name [] = [].
Proof. done. Qed.

Section Walk.

Variables name other : jsstring.
Hypothesis name_head : head_check name = true.
Hypothesis other_head : head_check other = true.
Hypothesis name_walk : walk_check name other = true.
Hypothesis other_after : after_check other = true.

(** Where a tail of [name] is matched in the output of the scan for
    [other], the scan has copied that stretch of its input. *)
Lemma walk (L1 L2 t : jsstring) :
  name = L1 ++ L2 → L1 ≠ [] →
  strip_lit L2 (redact_header other t) ≠ None →
  redact_header other t
  = take (length L2) t ++ redact_header other (drop (length L2) t)
  ∧ length L2 ≤ length t.
Proof.
  revert L1 t. induction L2 as [|l L2 IH]; intros L1 t Hn HL1 Hs.
  - simpl. rewrite drop_0. split; [done | lia].
  - destruct t as [|c t]; [done|].
    destruct (header_match other (c :: t)) as [n|] eqn:E.
    + exfalso. apply Hs. rewrite (redact_header_hit _ n) by done.
      apply ci_clash_strip.
      unfold walk_check in name_walk. rewrite forallb_forall in name_walk.
      apply name_walk. rewrite Hn. destruct L1 as [|a L1]; [done|].
      simpl. by apply tails_ne_suffix.
    + rewrite redact_header_miss in * by done. simpl in Hs.
      destruct (ci_eq l c); [|done].
      destruct (IH (L1 ++ [l]) t) as [H1 H2].
      { by rewrite <- app_assoc. }
      { by destruct L1. }
      { done. }
      simpl. split; [by f_equal | lia].
Qed.

(** A match of [name] that begins at a copied unit was there before the
    scan for [other], and it was and stays what [replace] writes. *)
Lemma settled_at_step c (t : jsstring) :
  settled_at name (c :: t) →
  settled_at name (c :: redact_header other t).
Proof.
  intros Hat n Hn.
  destruct (header_match_inv _ _ _ Hn) as [r [Hr _]].
  assert (En : ∃ l L2, name = l :: L2).
  { destruct name as [|l L2]; [done | eauto]. }
  destruct En as [l [L2 En]]. rewrite En in Hr. simpl in Hr.
  destruct (ci_eq l c) eqn:Elc; [|done].
  destruct (walk [l] L2 t) as [Hw Hlen]; [done | done | by rewrite Hr |].
  assert (Hlw : length (take (length L2) t) = length L2)
    by (apply length_take_le; lia).
  pose proof (take_drop (length L2) t) as Ht.
  remember (take (length L2) t) as w eqn:Ew.
  remember (drop (length L2) t) as r0 eqn:Er0.
  clear Ew Er0. subst t.
  rewrite Hw in Hr, Hn |- *.
  pose proof (strip_lit_prefix _ _ _ r0 _ Hlw Hr) as Hr0.
  assert (Hs0 : strip_lit name (c :: w ++ r0) = Some r0).
  { rewrite En. simpl. by rewrite Elc. }
  destruct (header_match name (c :: w ++ r0)) as [n0|] eqn:E0.
  - specialize (Hat n0 E0).
    pose proof (header_match_ends _ _ _ E0) as Hx.
    pose proof (take_drop n0 (c :: w ++ r0)) as Hsplit.
    rewrite Hat in Hsplit.
    remember (drop n0 (c :: w ++ r0)) as x eqn:Ex. clear Ex.
    change (header_out name) with (name ++ SP_REDACTED) in Hsplit.
    rewrite <- app_assoc in Hsplit.
    change (c :: w ++ r0) with ((c :: w) ++ r0) in Hsplit.
    apply app_inj_1 in Hsplit as [Hcw Hr0x];
      [| rewrite En; simpl; by rewrite Hlw].
    assert (Heq : c :: w ++ redact_header other r0
                  = header_out name ++ redact_header other x).
    { rewrite <- Hr0x. rewrite (redact_copy other) by done.
      change (header_out name) with (name ++ SP_REDACTED).
      rewrite <- app_assoc. by rewrite Hcw. }
    rewrite Heq in *.
    rewrite header_match_out in Hn by by apply redact_ends_word.
    injection Hn as <-. apply take_app_length.
  - pose proof (header_match_none_inv _ _ _ Hs0 E0) as Hsp.
    rewrite (redact_spaces other) in Hn by done. congruence.
Qed.

(** The scan for [other] keeps the matches of [name] settled. *)
Lemma settled_redact (t : jsstring) :
  inner_check name (header_out other) = true →
  settled name t → settled name (redact_header other t).
Proof.
  intros Hin.
  induction t as [| c t Hmiss IH | t n Hhit IH]
    using (scan_ind _ (header_match_proper other)); intros Hs.
  - done.
  - rewrite redact_header_miss by done. destruct Hs as [Hat Hs].
    split; [by apply settled_at_step | by apply IH].
  - rewrite (redact_header_hit _ n) by done.
    apply settled_app; [done|]. by apply IH, settled_drop.
Qed.

End Walk.

(** After the scan for [name], its matches are settled. *)
Lemma settled_self (name t : jsstring) :
  head_check name = true → walk_check name name = true →
  after_check name = true →
  inner_check name (tail (header_out name)) = true →
  settled name (redact_header name t).
Proof.
  intros Hh Hw Ha Hin.
  induction t as [| c t Hmiss IH | t n Hhit IH]
    using (scan_ind _ (header_match_proper name)).
  - done.
  - rewrite redact_header_miss by done. split; [|done].
    apply (settled_at_step name name Hh Hh Hw Ha).
    intros n Hn. congruence.
  - rewrite (redact_header_hit _ n) by done.
    pose proof (header_match_ends _ _ _ Hhit) as Hx.
    apply (redact_ends_word name Hh) in Hx.
    remember (redact_header name (drop n t)) as y eqn:Ey. clear Ey.
    destruct (header_out name) as [|o outt] eqn:Eo.
    { unfold header_out in Eo. by destruct name. }
    simpl in Hin. split; [|by apply settled_app].
    change (o :: outt ++ y) with ((o :: outt) ++ y). rewrite <- Eo.
    intros k Hk. rewrite header_match_out in Hk by done.
    injection Hk as <-. apply take_app_length.
Qed.

End HeaderFacts.

(** The three header replacements of [sanitizeMessage], applied in its
    order, leave a text that none of them changes. *)
Lemma redact_headers_settled (s : jsstring) :
  settled x_api_key (redact_headers s)
  ∧ settled x_api_secret (redact_headers s)
  ∧ settled authorization (redact_headers s).
Proof.
  unfold redact_headers. repeat split.
  - apply settled_redact; [by vm_compute..|].
    apply settled_redact; [by vm_compute..|].
    apply settled_self; by vm_compute.
  - apply settled_redact; [by vm_compute..|].
    apply settled_self; by vm_compute.
  - apply settled_self; by vm_compute.
Qed.

Lemma redact_headers_idem (s : jsstring) :
  redact_headers (redact_headers s) = redact_headers s.
Proof.
  destruct (redact_headers_settled s) as [H1 [H2 H3]].
  unfold redact_headers at 1.
  rewrite (settled_fixed _ _ H1), (settled_fixed _ _ H2).
  by rewrite (settled_fixed _ _ H3).
Qed.

(** ** The sanitizer: claims *)

(** C1, as stated, fails: the redaction token itself can contain a
    registered secret.  With the secret [ACT] registered, the message
    [token ACT rejected] is sanitized to [token [REDACTED] rejected], which
    contains [ACT]. *)
Lemma sanitizeMessage_token_contains_secret :
  In (u16 "ACT") (registered [u16 "ACT"])
  ∧ sanitizeMessage (registered [u16 "ACT"]) (u16 "token ACT rejected")
    = u16 "token [REDACTED] rejected"
  ∧ occurs (u16 "ACT")
      (sanitizeMessage (registered [u16 "ACT"]) (u16 "token ACT rejected")).
Proof.
  split; [simpl; auto|]. split; [by vm_compute|].
  apply includes_spec. by vm_compute.
Qed.

(** C1 (amended): for every list of secrets registered through
    [registerSensitivePattern] none of which overlaps a text the sanitizer
    itself writes (the token [[REDACTED]] and the three header
    replacements), and for every message, the output of [sanitizeMessage]
    contains no substring equal to a registered secret, however often and
    wherever the secrets occur in the message. *)
Theorem sanitizeMessage_no_secret (secrets : list jsstring) (M p : jsstring) :
  clear_of_written (registered secrets) = true →
  In p (registered secrets) →
  ¬ occurs p (sanitizeMessage (registered secrets) M).
Proof.
  intros Hclear Hp. apply sanitizeMessage_clear; [|done..].
  intros q Hq. by apply registered_elem in Hq as [_ Hq].
Qed.

Lemma sanitizeMessage_no_secret_witness :
  ¬ occurs (u16 "s3cr3t-9")
      (sanitizeMessage (registered [u16 "s3cr3t-9"; u16 "K0-pa55"])
         (u16 "s3cr3t-9s3cr3t-9 K0-pa55 x-api-key: s3cr3t-9")).
Proof.
  apply (sanitizeMessage_no_secret [u16 "s3cr3t-9"; u16 "K0-pa55"]).
  - vm_compute. reflexivity.
  - simpl. auto.
Defined.

(** C6, as stated, fails: with the secret [ACT] registered, sanitizing
    [ACT] gives [[REDACTED]], and sanitizing that again replaces the
    [ACT] inside the token. *)
Lemma sanitizeMessage_not_idempotent :
  sanitizeMessage (registered [u16 "ACT"]) (u16 "ACT") = u16 "[REDACTED]"
  ∧ sanitizeMessage (registered [u16 "ACT"])
      (sanitizeMessage (registered [u16 "ACT"]) (u16 "ACT"))
    = u16 "[RED[REDACTED]ED]"
  ∧ sanitizeMessage (registered [u16 "ACT"])
      (sanitizeMessage (registered [u16 "ACT"]) (u16 "ACT"))
    ≠ sanitizeMessage (registered [u16 "ACT"]) (u16 "ACT").
Proof. split; [by vm_compute|]. split; by vm_compute. Qed.

(** C6 (amended): for every list of registered secrets none of which
    overlaps a text the sanitizer itself writes (in particular for the
    empty registry) and for every message, [sanitizeMessage] is
    idempotent. *)
Theorem sanitizeMessage_idempotent (secrets : list jsstring) (M : jsstring) :
  clear_of_written (registered secrets) = true →
  sanitizeMessage (registered secrets)
    (sanitizeMessage (registered secrets) M)
  = sanitizeMessage (registered secrets) M.
Proof.
  intros Hclear.
  assert (Hne : ∀ q, In q (registered secrets) → q ≠ []).
  { intros q Hq. by apply registered_elem in Hq as [_ Hq]. }
  unfold sanitizeMessage at 1. rewrite redact_patterns_absent.
  - unfold sanitizeMessage. apply redact_headers_idem.
  - intros q Hq. split; [by apply Hne|]. by apply sanitizeMessage_clear.
Qed.

Lemma sanitizeMessage_idempotent_witness :
  sanitizeMessage (registered [u16 "s3cr3t-9"; u16 "K0-pa55"])
    (sanitizeMessage (registered [u16 "s3cr3t-9"; u16 "K0-pa55"])
       (u16 "Authorization: Bearer s3cr3t-9 failed for K0-pa55"))
  = sanitizeMessage (registered [u16 "s3cr3t-9"; u16 "K0-pa55"])
      (u16 "Authorization: Bearer s3cr3t-9 failed for K0-pa55").
Proof.
  apply (sanitizeMessage_idempotent [u16 "s3cr3t-9"; u16 "K0-pa55"]).
  vm_compute. reflexivity.
Defined.
(** ** [handleKomodoError] *)

Lemma toJSON_of_call {B : Type} (f : value → B) (g : exception → B) ps :
  toJSON_of f g ps
  = (λ c, match c with Returns r => f r | Throws e => g e end)
    <$> toJSON_of Returns Throws ps.
Proof.
  induction ps as [|[P x] ps IH]; simpl; [done|].
  case_bool_decide; [|done].
  destruct x as [| | | | | | |t [r|e]| | | | |]; done.
Qed.

Lemma toJSON_of_accessors_call {B : Type} (f : value → B)
    (g : exception → B) ps :
  toJSON_of_accessors f g ps
  = (λ c, match c with Returns r => f r | Throws e => g e end)
    <$> toJSON_of_accessors Returns Throws ps.
Proof.
  induction ps as [|[P read] ps IH]; simpl; [done|].
  case_bool_decide; [|done].
  destruct read as [[| | | | | | |t [r|e]| | | | |]|e]; done.
Qed.

(** The [toJSON] that is called is a function among the properties. *)
Lemma toJSON_of_elem ps c :
  toJSON_of Returns Throws ps = Some c →
  ∃ P t, (P, VFunction t c) ∈ ps.
Proof.
  induction ps as [|[P x] ps IH]; simpl; [done|].
  case_bool_decide.
  - destruct x as [| | | | | | |t [r|e]| | | | |]; try done;
      intros [= <-]; exists P, t; left.
  - intros Hf. destruct (IH Hf) as (P' & t & Hin).
    exists P', t. by right.
Qed.

Lemma toJSON_of_accessors_elem ps r :
  toJSON_of_accessors Returns Throws ps = Some (Returns r) →
  ∃ P t, (P, Returns (VFunction t (Returns r))) ∈ ps.
Proof.
  induction ps as [|[P read] ps IH]; simpl; [done|].
  case_bool_decide.
  - destruct read as [[| | | | | | |t [r'|e]| | | | |]|e]; try done.
    intros [= <-]. exists P, t. left.
  - intros Hf. destruct (IH Hf) as (P' & t & Hin).
    exists P', t. by right.
Qed.

Section Serialize.

Variable serialize : value → completion (option jsstring).
Variable passes : value → bool.

(** [serialize] returns on the values that pass and throws on the
    others. *)
Let agree (x : value) : Prop :=
  if passes x then ∃ r, serialize x = Returns r
  else ∃ e, serialize x = Throws e.

Lemma object_members_cases (ps : list (jsstring * value)) :
  Forall (λ kv, agree kv.2) ps →
  if forallb (λ kv, passes kv.2) ps
  then ∃ l, object_members serialize ps = Returns l
  else ∃ e, object_members serialize ps = Throws e.
Proof.
  unfold agree.
  induction 1 as [| [P x] ps Hx _ IH]; simpl; [eauto|].
  simpl in Hx. destruct (passes x); simpl.
  - destruct Hx as [r ->]. simpl.
    destruct (forallb _ ps).
    + destruct IH as [l ->]. simpl. eauto.
    + destruct IH as [e ->]. simpl. eauto.
  - destruct Hx as [e ->]. simpl. eauto.
Qed.

Lemma accessor_members_cases (ps : list (jsstring * completion value)) :
  Forall (λ kc, if_returns agree kc.2) ps →
  if forallb (λ kc, match kc.2 with
                    | Returns x => passes x
                    | Throws _ => false
                    end) ps
  then ∃ l, accessor_members serialize ps = Returns l
  else ∃ e, accessor_members serialize ps = Throws e.
Proof.
  unfold agree.
  induction 1 as [| [P [x|e]] ps Hx _ IH]; simpl; [eauto| |eauto].
  simpl in Hx. destruct (passes x); simpl.
  - destruct Hx as [r ->]. simpl.
    destruct (forallb _ ps).
    + destruct IH as [l ->]. simpl. eauto.
    + destruct IH as [e ->]. simpl. eauto.
  - destruct Hx as [e ->]. simpl. eauto.
Qed.

Lemma array_items_cases (es : list value) :
  Forall agree es →
  if forallb passes es
  then ∃ l, array_items serialize es = Returns l
  else ∃ e, array_items serialize es = Throws e.
Proof.
  unfold agree.
  induction 1 as [| x es Hx _ IH]; simpl; [eauto|].
  destruct (passes x); simpl.
  - destruct Hx as [r ->]. simpl.
    destruct (forallb _ es).
    + destruct IH as [l ->]. simpl. eauto.
    + destruct IH as [e ->]. simpl. eauto.
  - destruct Hx as [e ->]. simpl. eauto.
Qed.

End Serialize.

Section Cases.

(** [SerializeJSONProperty] returns on the values that [serializes]
    accepts, and [undefined] for [undefined], a symbol and a function
    only; on the other values it throws. *)
Let cases (called : bool) (v : value) : Prop :=
  if serializes called v
  then ∃ r, SerializeJSONProperty called v = Returns r
            ∧ (r = None
               ↔ unserialized (if called then v else replacement v) = true)
  else ∃ e, SerializeJSONProperty called v = Throws e.

Let below (v : value) : Prop :=
  match v with
  | VFunction _ (Returns r) => ∀ called, cases called r
  | _ => True
  end.

Lemma cases_weaken called (x : value) :
  cases called x →
  if serializes called x then ∃ r, SerializeJSONProperty called x = Returns r
  else ∃ e, SerializeJSONProperty called x = Throws e.
Proof.
  unfold cases. destruct (serializes called x); [|done].
  intros [r [Hr _]]. eauto.
Qed.

Lemma SerializeJSONProperty_all (v : value) :
  (∀ called, cases called v) ∧ below v.
Proof.
  induction v as [| | b | n | n | s | d | t call IH | m | props IH
                 | reads IH | elems IH | k] using value_ind'.
  - (* undefined *)
    split; [intros called | exact I]. unfold cases. simpl.
    by destruct called; (eexists; split; [reflexivity|]).
  - (* null *)
    split; [intros called | exact I]. unfold cases. simpl.
    by destruct called; (eexists; split; [reflexivity|]).
  - (* a boolean *)
    split; [intros called | exact I]. unfold cases. simpl.
    by destruct b, called; (eexists; split; [reflexivity|]).
  - (* a number *)
    split; [intros called | exact I]. unfold cases. simpl.
    by destruct n as [text| |neg], called; (eexists; split; [reflexivity|]).
  - (* a bigint *)
    split; [intros called | exact I]. unfold cases. simpl. eauto.
  - (* a string *)
    split; [intros called | exact I]. unfold cases. simpl.
    by destruct called; (eexists; split; [reflexivity|]).
  - (* a symbol *)
    split; [intros called | exact I]. unfold cases. simpl.
    by destruct called; (eexists; split; [reflexivity|]).
  - (* a function *)
    split.
    + intros called. unfold cases. simpl.
      by destruct called; (eexists; split; [reflexivity|]).
    + destruct call as [r|e]; [|exact I]. simpl in IH. exact (proj1 IH).
  - (* an Error *)
    split; [intros called | exact I]. unfold cases. simpl.
    by destruct called; (eexists; split; [reflexivity|]).
  - (* an object *)
    split; [intros called | exact I].
    assert (Hmembers :
      if forallb (λ kv, serializes false kv.2) props
      then ∃ l, object_members (SerializeJSONProperty false) props
                = Returns l
      else ∃ e, object_members (SerializeJSONProperty false) props
                = Throws e).
    { apply object_members_cases. eapply Forall_impl; [exact IH|].
      intros [P x] [Hx _]. apply cases_weaken, Hx. }
    assert (Hplain :
      if forallb (λ kv, serializes false kv.2) props
      then ∃ r, (partial ← object_members (SerializeJSONProperty false)
                             props;
                 Returns (Some (u16 "{" ++ join (u16 ",") partial
                                ++ u16 "}"))) = Returns r
                ∧ (r = None ↔ false = true)
      else ∃ e, (partial ← object_members (SerializeJSONProperty false)
                             props;
                 Returns (Some (u16 "{" ++ join (u16 ",") partial
                                ++ u16 "}"))) = Throws e).
    { destruct (forallb _ props).
      - destruct Hmembers as [l ->]. eexists. split; [reflexivity|done].
      - destruct Hmembers as [e ->]. eauto. }
    unfold cases. destruct called; [exact Hplain|].
    simpl. unfold replacement, toJSON_call.
    rewrite (toJSON_of_call (SerializeJSONProperty true)),
            (toJSON_of_call (serializes true)).
    destruct (toJSON_of Returns Throws props) as [[r|e]|] eqn:E; simpl.
    + destruct (toJSON_of_elem _ _ E) as (P & t & Hin).
      rewrite Forall_forall in IH. destruct (IH _ Hin) as [_ Hr].
      apply (Hr true).
    + eauto.
    + exact Hplain.
  - (* an object with accessors *)
    split; [intros called | exact I].
    assert (Hmembers :
      if forallb (λ kc, match kc.2 with
                        | Returns x => serializes false x
                        | Throws _ => false
                        end) reads
      then ∃ l, accessor_members (SerializeJSONProperty false) reads
                = Returns l
      else ∃ e, accessor_members (SerializeJSONProperty false) reads
                = Throws e).
    { apply accessor_members_cases. eapply Forall_impl; [exact IH|].
      intros [P [x|e]]; simpl; [|done].
      intros [Hx _]. apply cases_weaken, Hx. }
    assert (Hplain :
      if forallb (λ kc, match kc.2 with
                        | Returns x => serializes false x
                        | Throws _ => false
                        end) reads
      then ∃ r, (partial ← accessor_members (SerializeJSONProperty false)
                             reads;
                 Returns (Some (u16 "{" ++ join (u16 ",") partial
                                ++ u16 "}"))) = Returns r
                ∧ (r = None ↔ false = true)
      else ∃ e, (partial ← accessor_members (SerializeJSONProperty false)
                             reads;
                 Returns (Some (u16 "{" ++ join (u16 ",") partial
                                ++ u16 "}"))) = Throws e).
    { destruct (forallb _ reads).
      - destruct Hmembers as [l ->]. eexists. split; [reflexivity|done].
      - destruct Hmembers as [e ->]. eauto. }
    unfold cases. destruct called; [exact Hplain|].
    simpl. unfold replacement, toJSON_call.
    rewrite (toJSON_of_accessors_call (SerializeJSONProperty true)),
            (toJSON_of_accessors_call (serializes true)).
    destruct (toJSON_of_accessors Returns Throws reads) as [[r|e]|] eqn:E;
      simpl.
    + destruct (toJSON_of_accessors_elem _ _ E) as (P & t & Hin).
      rewrite Forall_forall in IH. destruct (IH _ Hin) as [_ Hr].
      apply (Hr true).
    + eauto.
    + exact Hplain.
  - (* an array *)
    split; [intros called | exact I].
    assert (Hitems :
      if forallb (serializes false) elems
      then ∃ l, array_items (SerializeJSONProperty false) elems = Returns l
      else ∃ e, array_items (SerializeJSONProperty false) elems = Throws e).
    { apply array_items_cases. eapply Forall_impl; [exact IH|].
      intros x [Hx _]. apply cases_weaken, Hx. }
    unfold cases. simpl.
    destruct (forallb _ elems).
    + destruct Hitems as [l ->].
      by destruct called; (eexists; split; [reflexivity|]).
    + destruct Hitems as [e ->]. eauto.
  - (* a reference to an enclosing object *)
    split; [intros called | exact I]. unfold cases. simpl. eauto.
Qed.

End Cases.

(** [JSON.stringify] returns on the values that [serializes] accepts, and
    [undefined] only when what is serialized in place of the value is
    [undefined], a symbol or a function; on the other values it throws. *)
Lemma JSON_stringify_cases (v : value) :
  if serializes false v
  then ∃ r, JSON_stringify v = Returns r
            ∧ (r = None ↔ unserialized (replacement v) = true)
  else ∃ e, JSON_stringify v = Throws e.
Proof. apply (proj1 (SerializeJSONProperty_all v) false). Qed.

(** For an object that is not an [Error], [rawMessage] is what
    [JSON.stringify] gives. *)
Lemma rawMessage_object (error : value) :
  is_object error = true → instanceof_Error error = false →
  rawMessage error
  = r ← JSON_stringify error ;
    match r with
    | Some s => Returns (PString s)
    | None => Returns PUndefined
    end.
Proof. by destruct error. Qed.

Lemma rawMessage_object_reportable (error : value) :
  is_object error = true → instanceof_Error error = false →
  (∃ raw, rawMessage error = Returns (PString raw))
  ↔ serializes false error && negb (unserialized (replacement error))
    = true.
Proof.
  intros Ho He. rewrite (rawMessage_object _ Ho He).
  pose proof (JSON_stringify_cases error) as H.
  destruct (serializes false error); simpl.
  - destruct H as [[s|] [-> Hnone]]; simpl.
    + destruct (unserialized (replacement error)).
      * discriminate (proj2 Hnone eq_refl).
      * split; [done | eauto].
    + rewrite (proj1 Hnone eq_refl). simpl.
      split; [by intros [raw [=]] | done].
  - destruct H as [e ->]. simpl. split; [by intros [raw [=]] | done].
Qed.

(** [rawMessage] is a string exactly on the values that are
    [reportable]. *)
Lemma rawMessage_reportable (error : value) :
  (∃ raw, rawMessage error = Returns (PString raw))
  ↔ reportable error = true.
Proof.
  destruct error as [| | b | n | n | s | d | t call | m | props | reads
                    | elems | k].
  1-8: by split; [done | intros _; eexists].
  - destruct m; simpl; split; first [by intros [raw [=]] | by eauto].
  - by apply rawMessage_object_reportable.
  - by apply rawMessage_object_reportable.
  - by apply rawMessage_object_reportable.
  - by apply rawMessage_object_reportable.
Qed.

Lemma rawMessage_normalized (error : value) (raw : jsstring) :
  rawMessage error = Returns (PString raw) ↔ normalized error raw.
Proof.
  split.
  - intros H.
    destruct error as [| | b | n | n | s | d | t call | m | props | reads
                      | elems | k];
      try (simpl in H; injection H as <-; by apply normalized_primitive).
    + simpl in H. injection H as ->. constructor.
    + apply normalized_object; [done..|].
      unfold rawMessage, is_object in H.
      destruct (JSON_stringify (VObject props)) as [[s|]|]; simpl in H;
        congruence.
    + apply normalized_object; [done..|].
      unfold rawMessage, is_object in H.
      destruct (JSON_stringify (VAccessors reads)) as [[s|]|]; simpl in H;
        congruence.
    + apply normalized_object; [done..|].
      unfold rawMessage, is_object in H.
      destruct (JSON_stringify (VArray elems)) as [[s|]|]; simpl in H;
        congruence.
    + done.
  - intros [m | v s Hi Ho Hs | v Ho].
    + done.
    + destruct v; try done; unfold rawMessage, is_object; by rewrite Hs.
    + by destruct v.
Qed.

(** The response for a message that is a string. *)
Lemma handleKomodoError_Returns reg context error raw :
  rawMessage error = Returns (PString raw) →
  handleKomodoError reg context error
  = Returns {|
      content := [ {| type := u16 "text";
                      text := u16 "Error " ++ context ++ u16 ": "
                              ++ sanitizeMessage reg raw |} ];
      isError := true |}.
Proof. unfold handleKomodoError. by intros ->. Qed.

(** [handleKomodoError] returns only for a message that is a string. *)
Lemma handleKomodoError_inv reg context error response :
  handleKomodoError reg context error = Returns response →
  ∃ raw, rawMessage error = Returns (PString raw).
Proof.
  unfold handleKomodoError.
  destruct (rawMessage error) as [[| | | | |raw|]|e]; try done. eauto.
Qed.

(** On a value that is reportable [handleKomodoError] returns. *)
Lemma handleKomodoError_reportable reg context error :
  reportable error = true →
  ∃ response, handleKomodoError reg context error = Returns response.
Proof.
  intros H. apply rawMessage_reportable in H as [raw H].
  rewrite (handleKomodoError_Returns _ _ _ _ H). eauto.
Qed.




(** Objects without a cycle on which it throws: one with a BigInt among
    its properties, one whose [toJSON] returns [undefined], one with a
    property whose reading throws, and an [Error] whose message is not a
    string. *)
Lemma handleKomodoError_throws_without_cycle reg context :
  handleKomodoError reg context (VObject [(u16 "n", VBigInt 10)])
  = Throws TypeError
  ∧ handleKomodoError reg context
      (VObject [(u16 "toJSON", VFunction (u16 "() => undefined")
                                 (Returns VUndefined))])
    = Throws TypeError
  ∧ handleKomodoError reg context
      (VAccessors [(u16 "status", Throws (Error (u16 "gone")))])
    = Throws (Error (u16 "gone"))
  ∧ handleKomodoError reg context (VError PUndefined) = Throws TypeError.
Proof. done. Qed.




(** ** The access-tier gate *)

Section Gate.

Context {ZodRawShape Handler : Type}.

Abbreviation Options := (Tools.ToolRegistrationOptions ZodRawShape Handler).
Abbreviation Server := (Tools.McpServer ZodRawShape Handler).

(** Whether [registerTool] registers: the two filters. *)
Lemma registerTool_true (server : Server) config (options : Options) :
  (Tools.registerTool server config options).1 = true
  ↔ Tools.TIER_LEVELS (Tools.accessTier options)
      ≤ Tools.TIER_LEVELS (Config.accessTier config)
    ∧ (Config.categories config = None
       ∨ ∃ l, Config.categories config = Some l
              ∧ Tools.category options ∈ l).
Proof.
  unfold Tools.registerTool.
  destruct (Nat.ltb_spec (Tools.TIER_LEVELS (Config.accessTier config))
              (Tools.TIER_LEVELS (Tools.accessTier options))) as [Hlt|Hge].
  - simpl. split; [done | intros [H _]; lia].
  - destruct (Config.categories config) as [l|]; simpl.
    + unfold Tools.array_includes.
      destruct (bool_decide_reflect (Tools.category options ∈ l)); simpl.
      * split; [|done]. intros _. split; [done|]. right. eauto.
      * split; [done|]. intros [_ [H | [l' [[= <-] H]]]]; done.
    + split; [|done]. intros _. split; [done|]. by left.
Qed.

(** The decision does not depend on what is registered already. *)
Lemma registerTool_decision (server server' : Server) config
    (options : Options) :
  (Tools.registerTool server config options).1
  = (Tools.registerTool server' config options).1.
Proof.
  unfold Tools.registerTool.
  destruct (_ <? _); [done|]. by destruct (match Config.categories config with
                                          | Some _ => _ | None => _ end).
Qed.

Lemma registerTool_names (server : Server) config (options : Options) :
  Tools.registered_names (Tools.registerTool server config options).2
  = if (Tools.registerTool server config options).1
    then Tools.registered_names server ∪ {[ Tools.name options ]}
    else Tools.registered_names server.
Proof.
  unfold Tools.registerTool, Tools.registered_names.
  destruct (_ <? _); [done|].
  destruct (match Config.categories config with
            | Some _ => _ | None => _ end); [done|].
  simpl. rewrite map_app, list_to_set_app_L. simpl.
  by rewrite (right_id_L ∅ (∪)).
Qed.

(** The names registered by a run over a list of tools. *)
Lemma registerAll_names config (tools : list Options) (server : Server) x :
  x ∈ Tools.registered_names (Tools.registerAll config tools server)
  ↔ x ∈ Tools.registered_names server
    ∨ ∃ options, options ∈ tools ∧ Tools.name options = x
        ∧ (Tools.registerTool [] config options).1 = true.
Proof.
  revert server. induction tools as [|o tools IH]; intros server; simpl.
  - split; [auto | intros [H | [o [Ho _]]]; [done|]].
    by apply elem_of_nil in Ho.
  - rewrite IH, registerTool_names.
    rewrite (registerTool_decision server [] config o).
    destruct (Tools.registerTool [] config o).1 eqn:E.
    + rewrite elem_of_union, elem_of_singleton. split.
      * intros [[H | ->] | [o' [Ho' H]]]; [auto | |].
        -- right. exists o. split; [left|done].
        -- right. exists o'. split; [by right | done].
      * intros [H | [o' [Ho' [Hn Hr]]]]; [auto|].
        apply elem_of_cons in Ho' as [-> | Ho']; [auto|].
        right. by exists o'.
    + split.
      * intros [H | [o' [Ho' H]]]; [auto|].
        right. exists o'. split; [by right | done].
      * intros [H | [o' [Ho' [Hn Hr]]]]; [auto|].
        apply elem_of_cons in Ho' as [-> | Ho']; [congruence|].
        right. by exists o'.
Qed.

(** C2, as stated, fails in its last part: a tool that requires [full] is
    not registered under the tier [full] when the category allowlist does
    not contain its category. *)
Lemma registerTool_full_filtered_by_category :
  let config := {|
    Config.url := u16 "https://komodo.example";
    Config.apiKey := u16 "K0-pa55"; Config.apiSecret := u16 "s3cr3t-9";
    Config.accessTier := full;
    Config.categories := Some [u16 "servers"]; Config.debug := false |} in
  let options := {|
    Tools.name := u16 "komodo_write_resource";
    Tools.description := u16 "Create, update or delete a resource";
    Tools.accessTier := full; Tools.category := u16 "write";
    Tools.annotations := None; Tools.inputSchema := @None unit;
    Tools.handler := tt |} in
  Config.accessTier config = full
  ∧ Tools.accessTier options = full
  ∧ Tools.registerTool [] config options = (false, []).
Proof. by vm_compute. Qed.

(** C2 (amended): [registerTool] registers the tool and returns [true] if
    and only if the configured tier ranks at least as high as the required
    tier and the category allowlist is [null] or contains the tool's
    category; otherwise the server is left as it was and [false] is
    returned.  In particular a tool that requires [full] is never
    registered under [read-only] or [read-execute], and it is registered if
    and only if the configured tier is [full] and the category allowlist
    is [null] or contains its category. *)
Theorem registerTool_spec (server : Server) config (options : Options) :
  let result := Tools.registerTool server config options in
  let category_passes :=
    Config.categories config = None
    ∨ ∃ l, Config.categories config = Some l ∧ Tools.category options ∈ l in
  (result.1 = true
   ↔ Tools.TIER_LEVELS (Tools.accessTier options)
       ≤ Tools.TIER_LEVELS (Config.accessTier config)
     ∧ category_passes)
  ∧ (result.1 = true →
     ∃ toolConfig,
       result.2 = server ++ [(Tools.name options, toolConfig,
                              Tools.handler options)])
  ∧ (result.1 = false → result.2 = server)
  ∧ (Tools.accessTier options = full →
     Config.accessTier config ≠ full → result = (false, server))
  ∧ (Tools.accessTier options = full →
     (result.1 = true
      ↔ Config.accessTier config = full ∧ category_passes)).
Proof.
  intros result category_passes. split; [apply registerTool_true|].
  assert (Hfull : Tools.accessTier options = full →
                  (Tools.TIER_LEVELS (Tools.accessTier options)
                     ≤ Tools.TIER_LEVELS (Config.accessTier config)
                   ↔ Config.accessTier config = full)).
  { intros ->. destruct (Config.accessTier config); simpl; split;
      first [done | lia]. }
  split; [|split; [|split]].
  - subst result. unfold Tools.registerTool.
    destruct (_ <? _); [done|].
    destruct (match Config.categories config with
              | Some _ => _ | None => _ end); [done|]. eauto.
  - subst result. unfold Tools.registerTool.
    destruct (_ <? _); [done|].
    by destruct (match Config.categories config with
                 | Some _ => _ | None => _ end).
  - intros Hopt Hcfg. subst result. unfold Tools.registerTool.
    destruct (Nat.ltb_spec (Tools.TIER_LEVELS (Config.accessTier config))
                (Tools.TIER_LEVELS (Tools.accessTier options))); [done|].
    exfalso. by apply Hcfg, Hfull.
  - intros Hopt. subst result. rewrite registerTool_true.
    by rewrite (Hfull Hopt).
Qed.

(** C3: tier monotonicity.  For a fixed list of tools, registered in order
    on the same server, and two configurations with the same category
    allowlist, the first of a tier ranked no higher than the second, every
    tool name registered under the first is registered under the second. *)
Theorem registerAll_monotone (tools : list Options) (server : Server)
    (C1 C2 : Config.AppConfig) :
  Tools.TIER_LEVELS (Config.accessTier C1)
    ≤ Tools.TIER_LEVELS (Config.accessTier C2) →
  Config.categories C1 = Config.categories C2 →
  Tools.registered_names (Tools.registerAll C1 tools server)
    ⊆ Tools.registered_names (Tools.registerAll C2 tools server).
Proof.
  intros Htier Hcat x. rewrite !registerAll_names.
  intros [H | [o [Ho [Hn Hr]]]]; [by left|].
  right. exists o. split; [done|]. split; [done|].
  apply registerTool_true in Hr as [Hr1 Hr2]. apply registerTool_true.
  split; [lia|]. by rewrite <- Hcat.
Qed.

End Gate.

Lemma registerTool_spec_witness :
  Tools.registerTool (ZodRawShape := unit) (Handler := unit) []
    {| Config.url := u16 "https://komodo.example";
       Config.apiKey := u16 "K0-pa55"; Config.apiSecret := u16 "s3cr3t-9";
       Config.accessTier := read_execute;
       Config.categories := None; Config.debug := false |}
    {| Tools.name := u16 "komodo_write_resource";
       Tools.description := u16 "Create, update or delete a resource";
       Tools.accessTier := full; Tools.category := u16 "write";
       Tools.annotations := None; Tools.inputSchema := None;
       Tools.handler := tt |}
  = (false, []).
Proof.
  refine (proj1 (proj2 (proj2 (proj2 (registerTool_spec _ _ _)))) _ _);
    [reflexivity | discriminate].
Defined.

Lemma registerAll_monotone_witness :
  let tools := [
    {| Tools.name := u16 "komodo_list_servers"; Tools.description := [];
       Tools.accessTier := read_only; Tools.category := u16 "servers";
       Tools.annotations := None; Tools.inputSchema := None;
       Tools.handler := tt |};
    {| Tools.name := u16 "komodo_prune_docker"; Tools.description := [];
       Tools.accessTier := read_execute; Tools.category := u16 "servers";
       Tools.annotations := None; Tools.inputSchema := None;
       Tools.handler := tt |};
    {| Tools.name := u16 "komodo_write_resource"; Tools.description := [];
       Tools.accessTier := full; Tools.category := u16 "write";
       Tools.annotations := None; Tools.inputSchema := @None unit;
       Tools.handler := tt |} ] in
  let C tier := {| Config.url := u16 "https://komodo.example";
       Config.apiKey := u16 "K0-pa55"; Config.apiSecret := u16 "s3cr3t-9";
       Config.accessTier := tier;
       Config.categories := Some [u16 "servers"; u16 "write"];
       Config.debug := false |} in
  Tools.registered_names (Tools.registerAll (C read_execute) tools [])
    ⊆ Tools.registered_names (Tools.registerAll (C full) tools []).
Proof.
  intros tools C. apply registerAll_monotone; [simpl; lia | reflexivity].
Defined.

(** ** The configuration loader *)

Section SplitTrim.

Lemma split_nonempty sep (s : jsstring) : split sep s ≠ [].
Proof.
  induction s as [|c s IH]; simpl; [done|].
  destruct (c =? sep)%N; [done|]. by destruct (split sep s).
Qed.

(** The segments, joined by the separator, give back the string. *)
Lemma join_split sep (s : jsstring) : join [sep] (split sep s) = s.
Proof.
  induction s as [|c s IH]; simpl; [done|].
  destruct (N.eqb_spec c sep) as [->|Hne].
  - pose proof (split_nonempty sep s) as Hs.
    destruct (split sep s) as [|seg segs]; [done|].
    simpl in *. by rewrite IH.
  - pose proof (split_nonempty sep s) as Hs.
    destruct (split sep s) as [|seg segs]; [done|].
    destruct segs; simpl in *; by rewrite <- IH.
Qed.

(** No segment contains the separator. *)
Lemma split_no_sep sep (s seg : jsstring) :
  seg ∈ split sep s → sep ∉ seg.
Proof.
  revert seg; induction s as [|c s IH]; simpl; intros seg.
  - rewrite list_elem_of_singleton. intros ->. apply not_elem_of_nil.
  - destruct (N.eqb_spec c sep) as [->|Hne].
    + rewrite elem_of_cons. intros [-> | H]; [apply not_elem_of_nil | eauto].
    + pose proof (split_nonempty sep s) as Hs.
      destruct (split sep s) as [|seg0 segs]; [done|].
      rewrite elem_of_cons. intros [-> | H].
      * rewrite not_elem_of_cons. split; [done|]. apply IH. by left.
      * apply IH. by right.
Qed.

Lemma keep_while_all p (s : jsstring) : forallb p (keep_while p s) = true.
Proof.
  induction s as [|c s IH]; simpl; [done|].
  destruct (p c) eqn:E; simpl; [by rewrite E | done].
Qed.

(** [trim] removes white space at both ends and nothing else. *)
Lemma trim_decompose (s : jsstring) :
  ∃ a b, s = a ++ trim s ++ b
         ∧ forallb is_space a = true ∧ forallb is_space b = true.
Proof.
  unfold trim. set (t := skip_while is_space s).
  exists (keep_while is_space s), (rev (keep_while is_space (rev t))).
  split; [|split].
  - rewrite <- rev_app_distr, skip_keep_while, rev_involutive.
    subst t. by rewrite skip_keep_while.
  - apply keep_while_all.
  - rewrite forallb_forall. intros c Hc. apply in_rev in Hc.
    pose proof (keep_while_all is_space (rev t)) as H.
    rewrite forallb_forall in H. by apply H.
Qed.

Lemma trim_head (s : jsstring) c :
  head (trim s) = Some c → is_space c = false.
Proof.
  unfold trim. set (t := skip_while is_space s).
  pose proof (skip_keep_while is_space (rev t)) as H.
  apply (f_equal (λ l : jsstring, rev l)) in H.
  rewrite rev_app_distr, rev_involutive in H.
  destruct (rev (skip_while is_space (rev t))) as [|d u]; [done|].
  simpl. intros Hd. injection Hd as Hd. subst d. simpl in H.
  symmetry in H. by apply (skip_while_head is_space c s _ H).
Qed.

Lemma trim_last (s : jsstring) c :
  last (trim s) = Some c → is_space c = false.
Proof.
  unfold trim. set (t := skip_while is_space s).
  destruct (skip_while is_space (rev t)) as [|d u] eqn:E; [done|].
  simpl. rewrite last_snoc. intros Hd. injection Hd as Hd. subst d.
  by apply (skip_while_head is_space c (rev t) u).
Qed.

End SplitTrim.

(** C8: the category allowlist.  An absent or empty value yields [null]
    (no restriction).  Any other value is split at the commas (the
    segments, joined by commas, are the value, and no segment contains a
    comma), every segment is trimmed of the white space at its ends and of
    nothing else, and the empty results are dropped, the others kept in
    order.  [null] is distinct from the empty allowlist, which a value such
    as [,] yields and under which no tool is registered, while under
    [null] the category of a tool plays no part. *)
Theorem parseCategories_spec :
  (Config.parseCategories None = None
   ∧ Config.parseCategories (Some []) = None)
  ∧ (∀ v : jsstring, v ≠ [] →
       Config.parseCategories (Some v)
       = Some (filter (λ s, s ≠ []) (map trim (split 44 v)))
       ∧ ∀ x, x ∈ default [] (Config.parseCategories (Some v))
              ↔ x ≠ [] ∧ ∃ seg, seg ∈ split 44 v ∧ x = trim seg)
  ∧ (∀ v : jsstring,
       join [44%N] (split 44 v) = v
       ∧ ∀ seg, seg ∈ split 44 v → 44%N ∉ seg)
  ∧ (∀ seg : jsstring,
       (∃ a b, seg = a ++ trim seg ++ b
               ∧ forallb is_space a = true ∧ forallb is_space b = true)
       ∧ (∀ c, head (trim seg) = Some c → is_space c = false)
       ∧ (∀ c, last (trim seg) = Some c → is_space c = false))
  ∧ (Config.parseCategories (Some (u16 ",")) = Some []
     ∧ Some [] ≠ @None (list jsstring))
  ∧ (∀ (ZodRawShape Handler : Type)
       (server : Tools.McpServer ZodRawShape Handler) config
       (options : Tools.ToolRegistrationOptions ZodRawShape Handler),
       (Config.categories config = Some [] →
        Tools.registerTool server config options = (false, server))
       ∧ (Config.categories config = None →
          ((Tools.registerTool server config options).1 = true
           ↔ Tools.TIER_LEVELS (Tools.accessTier options)
               ≤ Tools.TIER_LEVELS (Config.accessTier config)))).
Proof.
  split; [done|]. split; [|split; [|split; [|split]]].
  - intros v Hv.
    assert (E : Config.parseCategories (Some v)
                = Some (filter (λ s, s ≠ []) (map trim (split 44 v)))).
    { destruct v as [|c v]; [done|]. unfold Config.parseCategories.
      f_equal. apply list_filter_iff. intros [|d x]; simpl; split;
        first [done | lia]. }
    split; [done|]. intros x. rewrite E. simpl.
    rewrite list_elem_of_filter, list_elem_of_fmap. split.
    + intros [Hx [seg [-> Hseg]]]. eauto.
    + intros [Hx [seg [Hseg ->]]]. eauto.
  - intros v. split; [apply join_split | apply split_no_sep].
  - intros seg. split; [apply trim_decompose|].
    split; [apply trim_head | apply trim_last].
  - split; [by vm_compute | done].
  - intros ZodRawShape Handler server config options. split.
    + intros Hc. unfold Tools.registerTool. rewrite Hc.
      by destruct (_ <? _).
    + intros Hc. rewrite registerTool_true. rewrite Hc. split.
      * by intros [H _].
      * intros H. split; [done | by left].
Qed.

Lemma parseCategories_spec_witness :
  Config.parseCategories (Some (u16 " servers , ,stacks,"))
  = Some [u16 "servers"; u16 "stacks"].
Proof.
  destruct parseCategories_spec as [_ [H _]].
  destruct (H (u16 " servers , ,stacks,")) as [-> _]; [done|].
  by vm_compute.
Defined.

(** C9: the access tier.  The values [read-only] and [read-execute] are
    returned as they are; for every other value of the variable, and when
    it is not set, the tier is [full]. *)
Theorem parseAccessTier_spec (env : gmap string jsstring) :
  (∀ t, t ≠ full →
     env !! "KOMODO_ACCESS_TIER"%string = Some (tier_name t) →
     Config.parseAccessTier env = t)
  ∧ (env !! "KOMODO_ACCESS_TIER"%string ≠ Some (u16 "read-only") →
     env !! "KOMODO_ACCESS_TIER"%string ≠ Some (u16 "read-execute") →
     Config.parseAccessTier env = full).
Proof.
  unfold Config.parseAccessTier. split.
  - intros t Ht ->. by destruct t.
  - intros H1 H2. destruct (env !! "KOMODO_ACCESS_TIER"%string) as [v|];
      [|done].
    repeat case_bool_decide; congruence.
Qed.

Lemma parseAccessTier_spec_witness :
  Config.parseAccessTier {[ "KOMODO_ACCESS_TIER"%string := u16 "readonly" ]}
  = full
  ∧ Config.parseAccessTier
      {[ "KOMODO_ACCESS_TIER"%string := u16 "read-execute" ]}
    = read_execute.
Proof.
  split.
  - apply parseAccessTier_spec; by rewrite lookup_singleton_eq.
  - apply (proj1 (parseAccessTier_spec _) read_execute); [done|].
    by rewrite lookup_singleton_eq.
Defined.

Section LoadConfig.

Implicit Types env : gmap string jsstring.

Lemma required_cases (k : string) :
  k ∈ Config.required →
  k = "KOMODO_URL"%string ∨ k = "KOMODO_API_KEY"%string
  ∨ k = "KOMODO_API_SECRET"%string.
Proof.
  unfold Config.required. rewrite !elem_of_cons, elem_of_nil. tauto.
Qed.

Lemma missing_variables_ext env env' :
  (∀ k, k ∈ Config.required →
        Config.falsy (env' !! k) = Config.falsy (env !! k)) →
  Config.missing_variables env' = Config.missing_variables env.
Proof.
  intros H. unfold Config.missing_variables.
  rewrite !H; [done | unfold Config.required; set_solver..].
Qed.

Lemma missing_variables_nil env :
  Config.missing_variables env = []
  ↔ ∀ k, k ∈ Config.required → Config.falsy (env !! k) = false.
Proof.
  unfold Config.missing_variables. split.
  - intros H k Hk.
    destruct (Config.falsy (env !! "KOMODO_URL"%string)) eqn:E1; [done|].
    destruct (Config.falsy (env !! "KOMODO_API_KEY"%string)) eqn:E2; [done|].
    destruct (Config.falsy (env !! "KOMODO_API_SECRET"%string)) eqn:E3;
      [done|].
    by destruct (required_cases k Hk) as [-> | [-> | ->]].
  - intros H. rewrite !H; [done | unfold Config.required; set_solver..].
Qed.

(** With a variable missing, [loadConfig] throws the error built from the
    names of the missing variables. *)
Lemma loadConfig_throws env :
  Config.missing_variables env ≠ [] →
  Config.loadConfig env
  = Throws (Error (Config.missing_message (Config.missing_variables env))).
Proof.
  intros H. unfold Config.loadConfig.
  destruct (Config.missing_variables env); [done|].
  by rewrite bool_decide_eq_true_2 by (simpl; lia).
Qed.

Lemma loadConfig_returns env :
  Config.missing_variables env = [] →
  ∃ u k s,
    env !! "KOMODO_URL"%string = Some u
    ∧ env !! "KOMODO_API_KEY"%string = Some k
    ∧ env !! "KOMODO_API_SECRET"%string = Some s
    ∧ u ≠ [] ∧ k ≠ [] ∧ s ≠ []
    ∧ Config.loadConfig env = Returns {|
        Config.url := Config.strip_trailing_slashes u;
        Config.apiKey := k;
        Config.apiSecret := s;
        Config.accessTier := Config.parseAccessTier env;
        Config.categories :=
          Config.parseCategories (env !! "KOMODO_CATEGORIES"%string);
        Config.debug := negb (Config.falsy (env !! "DEBUG"%string)) |}.
Proof.
  intros H. unfold Config.loadConfig. rewrite H. simpl.
  unfold Config.missing_variables in H.
  destruct (env !! "KOMODO_URL"%string) as [[|c1 u]|]; try done.
  destruct (env !! "KOMODO_API_KEY"%string) as [[|c2 k]|]; try done.
  destruct (env !! "KOMODO_API_SECRET"%string) as [[|c3 s]|]; try done.
  exists (c1 :: u), (c2 :: k), (c3 :: s). by repeat split.
Qed.

(** The message names every missing variable. *)
Lemma missing_message_names env (k : string) :
  k ∈ Config.required → Config.falsy (env !! k) = true →
  occurs (u16 k) (Config.missing_message (Config.missing_variables env)).
Proof.
  intros Hk Hf. unfold Config.missing_variables.
  destruct (required_cases k Hk) as [-> | [-> | ->]]; rewrite Hf;
    repeat match goal with
           | |- context [Config.falsy ?x] => destruct (Config.falsy x)
           end;
    apply includes_spec; by vm_compute.
Qed.

End LoadConfig.

(** C7, as stated, fails in two points.  The message is fixed text around
    the names of the missing variables, and a credential can be a piece of
    that text: with the URL not set and the API key [Set], the message
    contains the API key.  And a variable that is present but empty counts
    as missing: with all three variables present and the API key empty,
    loading fails. *)
Lemma loadConfig_credential_text_and_empty_variable :
  let env : gmap string jsstring :=
    {[ "KOMODO_API_KEY"%string := u16 "Set";
       "KOMODO_API_SECRET"%string := u16 "s3cr3t-9" ]} in
  let env' : gmap string jsstring :=
    {[ "KOMODO_URL"%string := u16 "https://komodo.example";
       "KOMODO_API_KEY"%string := [];
       "KOMODO_API_SECRET"%string := u16 "s3cr3t-9" ]} in
  (env !! "KOMODO_API_KEY"%string = Some (u16 "Set")
   ∧ Config.loadConfig env
     = Throws (Error (u16 "Missing required environment variables: KOMODO_URL. Set these variables to connect to your Komodo instance."))
   ∧ occurs (u16 "Set")
       (u16 "Missing required environment variables: KOMODO_URL. Set these variables to connect to your Komodo instance."))
  ∧ ((∀ k, k ∈ Config.required → is_Some (env' !! k))
     ∧ Config.loadConfig env'
       = Throws (Error (u16 "Missing required environment variables: KOMODO_API_KEY. Set these variables to connect to your Komodo instance."))).
Proof.
  split.
  - split; [by vm_compute|]. split; [by vm_compute|].
    apply includes_spec. by vm_compute.
  - split; [|by vm_compute].
    intros k Hk.
    destruct (required_cases k Hk) as [-> | [-> | ->]];
      eexists; vm_compute; reflexivity.
Qed.

(** C7 (amended): for every environment in which one or more of the
    required variables is not set or is empty, [loadConfig] fails with a
    single error whose message names every missing variable, not just the
    first; the message is fixed text around the names of the missing
    variables, the same in every environment with the same variables
    missing, whatever the values of the others.  When all three are set
    and not empty, it succeeds and takes the API key and the API secret as
    they are and the URL without its trailing slashes; none is
    defaulted. *)
Theorem loadConfig_required (env : gmap string jsstring) :
  ((∃ k, k ∈ Config.required ∧ Config.falsy (env !! k) = true) →
   ∃ message,
     Config.loadConfig env = Throws (Error message)
     ∧ (∀ k, k ∈ Config.required → Config.falsy (env !! k) = true →
             occurs (u16 k) message)
     ∧ (∀ env' : gmap string jsstring,
          (∀ k, k ∈ Config.required →
                Config.falsy (env' !! k) = Config.falsy (env !! k)) →
          Config.loadConfig env' = Throws (Error message)))
  ∧ ((∀ k, k ∈ Config.required → Config.falsy (env !! k) = false) →
     ∃ u k s config,
       env !! "KOMODO_URL"%string = Some u
       ∧ env !! "KOMODO_API_KEY"%string = Some k
       ∧ env !! "KOMODO_API_SECRET"%string = Some s
       ∧ Config.loadConfig env = Returns config
       ∧ Config.url config = Config.strip_trailing_slashes u
       ∧ Config.apiKey config = k
       ∧ Config.apiSecret config = s).
Proof.
  split.
  - intros [k [Hk Hf]].
    assert (Hm : Config.missing_variables env ≠ []).
    { intros H. rewrite missing_variables_nil in H.
      rewrite (H k Hk) in Hf. done. }
    exists (Config.missing_message (Config.missing_variables env)).
    split; [by apply loadConfig_throws|]. split.
    + intros k' Hk' Hf'. by apply missing_message_names.
    + intros env' Hext.
      rewrite <- (missing_variables_ext env env' Hext).
      apply loadConfig_throws. by rewrite (missing_variables_ext env env').
  - intros H. apply missing_variables_nil in H.
    destruct (loadConfig_returns env H)
      as (u & k & s & Hu & Hk & Hs & _ & _ & _ & Hr).
    exists u, k, s. eexists. by repeat split.
Qed.

Lemma loadConfig_required_witness :
  ∃ message,
    Config.loadConfig {[ "KOMODO_API_KEY"%string := u16 "K0-pa55" ]}
    = Throws (Error message)
    ∧ occurs (u16 "KOMODO_URL") message
    ∧ occurs (u16 "KOMODO_API_SECRET") message.
Proof.
  destruct (proj1 (loadConfig_required
                     {[ "KOMODO_API_KEY"%string := u16 "K0-pa55" ]}))
    as [message [Hthrow [Hnames _]]].
  - exists "KOMODO_URL"%string. split; [|done].
    unfold Config.required. set_solver.
  - exists message. split; [done|]. split.
    + apply (Hnames "KOMODO_URL"%string); [|done].
      unfold Config.required. set_solver.
    + apply (Hnames "KOMODO_API_SECRET"%string); [|done].
      unfold Config.required. set_solver.
Defined.

(** C10: a required variable set to the empty string is treated as if it
    were not set: [loadConfig] behaves the same with the variable empty
    and with the variable removed, and fails with the error that names it.
    So no configuration that [loadConfig] returns has an empty API key or
    API secret. *)
Theorem loadConfig_empty_is_absent (env : gmap string jsstring) (k : string) :
  k ∈ Config.required →
  Config.loadConfig (<[k := []]> env) = Config.loadConfig (delete k env)
  ∧ (∃ message,
       Config.loadConfig (<[k := []]> env) = Throws (Error message)
       ∧ occurs (u16 k) message)
  ∧ (∀ config, Config.loadConfig env = Returns config →
       Config.apiKey config ≠ [] ∧ Config.apiSecret config ≠ []).
Proof.
  intros Hk.
  assert (Hf : Config.falsy (<[k := []]> env !! k) = true)
    by by rewrite lookup_insert_eq.
  assert (Hm : Config.missing_variables (<[k := []]> env) ≠ []).
  { intros H. rewrite missing_variables_nil in H.
    rewrite (H k Hk) in Hf. done. }
  assert (Hext : ∀ k', k' ∈ Config.required →
            Config.falsy (delete k env !! k')
            = Config.falsy (<[k := []]> env !! k')).
  { intros k' _. destruct (decide (k = k')) as [->|Hne].
    - by rewrite lookup_insert_eq, lookup_delete_eq.
    - by rewrite lookup_insert_ne, lookup_delete_ne. }
  split; [|split].
  - rewrite !loadConfig_throws;
      [by rewrite (missing_variables_ext _ _ Hext) | | done].
    by rewrite (missing_variables_ext _ _ Hext).
  - eexists. split; [by apply loadConfig_throws|].
    by apply missing_message_names.
  - intros config Hr.
    destruct (Config.missing_variables env) eqn:E.
    + destruct (loadConfig_returns env E)
        as (u & a & s & _ & _ & _ & _ & Ha & Hs & Hr').
      rewrite Hr' in Hr. injection Hr as <-. done.
    + rewrite loadConfig_throws in Hr by by rewrite E. done.
Qed.

Lemma loadConfig_empty_is_absent_witness :
  let env : gmap string jsstring :=
    {[ "KOMODO_URL"%string := u16 "https://komodo.example/";
       "KOMODO_API_KEY"%string := u16 "K0-pa55";
       "KOMODO_API_SECRET"%string := u16 "s3cr3t-9" ]} in
  Config.loadConfig (<["KOMODO_API_SECRET"%string := []]> env)
  = Config.loadConfig (delete "KOMODO_API_SECRET"%string env).
Proof.
  intros env. apply loadConfig_empty_is_absent.
  unfold Config.required. set_solver.
Defined.

(** * Further properties *)

(** ** The registry and the sanitizer *)

Lemma registered_from (secrets : list jsstring) (reg : registry) :
  fold_left (λ reg p, registerSensitivePattern p reg) secrets reg
  = reg ++ filter (λ p, p ≠ []) secrets.
Proof.
  revert reg; induction secrets as [|p secrets IH]; intros reg; simpl.
  - by rewrite app_nil_r.
  - rewrite IH. destruct p as [|c p]; simpl.
    + by rewrite filter_cons_False by naive_solver.
    + rewrite filter_cons_True by done. by rewrite <- app_assoc.
Qed.

(** X1: the registry after startup holds the non-empty strings that were
    registered, in the order of registration and with their repetitions;
    an empty string is never registered. *)
Theorem registered_filter (secrets : list jsstring) :
  registered secrets = filter (λ p, p ≠ []) secrets.
Proof. unfold registered. by rewrite registered_from. Qed.

Lemma matched_cons name c (s : jsstring) :
  matched name (c :: s) = false →
  header_match name (c :: s) = None ∧ matched name s = false.
Proof. simpl. by destruct (header_match name (c :: s)). Qed.

(** Where the pattern of the header matches nowhere, its replacement
    changes nothing. *)
Lemma redact_header_unmatched name (s : jsstring) :
  matched name s = false → redact_header name s = s.
Proof.
  induction s as [|c s IH]; [done|]. intros H.
  apply matched_cons in H as [H1 H2].
  rewrite redact_header_miss by done.
  by rewrite IH.
Qed.

(** X2: a message in which no registered secret occurs and none of the
    three header patterns matches anywhere (a header name in any case, any
    white space, and at least one unit that is not white space) is
    returned as it is. *)
Theorem sanitizeMessage_clean (secrets : list jsstring) (M : jsstring) :
  (∀ p, In p (registered secrets) → ¬ occurs p M) →
  matched x_api_key M = false →
  matched x_api_secret M = false →
  matched authorization M = false →
  sanitizeMessage (registered secrets) M = M.
Proof.
  intros Hp H1 H2 H3. unfold sanitizeMessage, redact_headers.
  rewrite redact_patterns_absent.
  - rewrite (redact_header_unmatched x_api_key) by done.
    rewrite (redact_header_unmatched x_api_secret) by done.
    by rewrite (redact_header_unmatched authorization).
  - intros q Hq. split; [|by apply Hp].
    by apply registered_elem in Hq as [_ Hq].
Qed.

Lemma sanitizeMessage_clean_witness :
  sanitizeMessage (registered [u16 "s3cr3t-9"; u16 "K0-pa55"])
    (u16 "401: the request has no authorization:")
  = u16 "401: the request has no authorization:".
Proof.
  apply sanitizeMessage_clean; [|by vm_compute..].
  intros p Hp Hocc. apply includes_spec in Hocc.
  apply registered_elem in Hp as [Hp _].
  destruct Hp as [<- | [<- | []]]; by vm_compute in Hocc.
Defined.

Lemma settled_suffix name (a t : jsstring) :
  settled name (a ++ t) → settled_at name t.
Proof.
  induction a as [|c a IH]; simpl.
  - destruct t as [|c t]; simpl; [|by intros [H _]].
    intros _ n Hn. destruct (header_match_proper name _ _ Hn).
    simpl in *. lia.
  - intros [_ H]. by apply IH.
Qed.

(** X3: in the output of [sanitizeMessage], for every registry and every
    message, wherever one of the three header patterns matches, the text it
    matches is the replacement: the header name in lower case, one space
    and [[REDACTED]]. *)
Theorem sanitizeMessage_headers_redacted (reg : registry)
    (M name a t : jsstring) (n : nat) :
  In name [x_api_key; x_api_secret; authorization] →
  sanitizeMessage reg M = a ++ t →
  header_match name t = Some n →
  take n t = header_out name.
Proof.
  intros Hname Hsplit Hn. apply (settled_suffix name a t); [|done].
  rewrite <- Hsplit. unfold sanitizeMessage.
  destruct (redact_headers_settled (redact_patterns reg M)) as [H1 [H2 H3]].
  destruct Hname as [<- | [<- | [<- | []]]]; done.
Qed.

Lemma sanitizeMessage_headers_redacted_witness :
  take 24 (u16 "x-api-secret: [REDACTED] was rejected")
  = u16 "x-api-secret: [REDACTED]".
Proof.
  apply (sanitizeMessage_headers_redacted [u16 "K0-pa55"]
           (u16 "call failed: X-API-Secret:K0-pa55abc was rejected")
           x_api_secret (u16 "call failed: ")
           (u16 "x-api-secret: [REDACTED] was rejected") 24).
  - simpl. auto.
  - by vm_compute.
  - by vm_compute.
Defined.

Lemma strip_lit_app (name lit x : jsstring) :
  strip_lit name lit = Some [] → strip_lit name (lit ++ x) = Some x.
Proof.
  revert lit; induction name as [|l name IH]; intros [|c lit]; simpl;
    try done.
  destruct (ci_eq l c); [apply IH | done].
Qed.

Lemma skip_while_app p (w x : jsstring) :
  forallb p w = true → skip_while p (w ++ x) = skip_while p x.
Proof.
  induction w as [|c w IH]; simpl; [done|].
  intros H. apply andb_true_iff in H as [-> H]. by apply IH.
Qed.

Lemma keep_while_app p (w x : jsstring) :
  forallb p w = true → keep_while p (w ++ x) = w ++ keep_while p x.
Proof.
  induction w as [|c w IH]; simpl; [done|].
  intros H. apply andb_true_iff in H as [-> H]. by rewrite IH.
Qed.

Lemma keep_while_non_space_end (r : jsstring) :
  ends_word r → keep_while non_space r = [].
Proof.
  destruct r as [|c r]; [done|]. simpl. unfold non_space. by intros ->.
Qed.

(** The match of a header: its name in any case, white space, one word. *)
Lemma header_match_word (name lit ws v r : jsstring) :
  strip_lit name lit = Some [] →
  forallb is_space ws = true →
  v ≠ [] → forallb non_space v = true →
  ends_word r →
  header_match name (lit ++ ws ++ v ++ r)
  = Some (length (lit ++ ws ++ v)).
Proof.
  intros Hlit Hws Hv Hns Hr. unfold header_match.
  rewrite (strip_lit_app _ _ _ Hlit).
  rewrite skip_while_app by done.
  destruct v as [|c v]; [done|]. simpl in Hns.
  apply andb_true_iff in Hns as [Hc Hns].
  assert (Hcs : is_space c = false).
  { unfold non_space in Hc. by destruct (is_space c). }
  simpl. rewrite Hcs. rewrite keep_while_app by done.
  simpl. rewrite Hcs, Hc. rewrite keep_while_app by done.
  rewrite keep_while_non_space_end by done.
  apply strip_lit_length in Hlit. rewrite !app_nil_r.
  f_equal. rewrite !length_app. simpl in *. lia.
Qed.

(** X4: each header replacement replaces the header name (in any case),
    the white space after it and exactly the first word that follows; the
    text after that word is not part of the match and is scanned on. *)
Theorem redact_header_one_word (name lit ws v r : jsstring) :
  strip_lit name lit = Some [] →
  forallb is_space ws = true →
  v ≠ [] → forallb non_space v = true →
  ends_word r →
  redact_header name (lit ++ ws ++ v ++ r)
  = header_out name ++ redact_header name r.
Proof.
  intros Hlit Hws Hv Hns Hr.
  rewrite (redact_header_hit _ _ _
             (header_match_word _ _ _ _ _ Hlit Hws Hv Hns Hr)).
  f_equal. f_equal.
  replace (lit ++ ws ++ v ++ r) with ((lit ++ ws ++ v) ++ r)
    by by rewrite <- !app_assoc.
  apply drop_app_length.
Qed.

Lemma redact_header_one_word_witness :
  redact_header x_api_key (u16 "X-Api-Key:" ++ u16 "  " ++ u16 "abc" ++ u16 " def")
  = header_out x_api_key ++ redact_header x_api_key (u16 " def").
Proof. by apply redact_header_one_word. Defined.

(** X5: of a bearer token only the scheme is redacted.  When a message
    begins with the authorization header (in any case), white space and a
    word, no header pattern matches anywhere else in it and no registered
    secret occurs in it, [sanitizeMessage] replaces that beginning by
    [authorization: [REDACTED]] and returns the rest as it is. *)
Theorem sanitizeMessage_authorization_rest (secrets : list jsstring)
    (lit ws v r : jsstring) :
  strip_lit authorization lit = Some [] →
  forallb is_space ws = true →
  v ≠ [] → forallb non_space v = true →
  ends_word r →
  (∀ p, In p (registered secrets) → ¬ occurs p (lit ++ ws ++ v ++ r)) →
  matched x_api_key (lit ++ ws ++ v ++ r) = false →
  matched x_api_secret (lit ++ ws ++ v ++ r) = false →
  matched authorization r = false →
  sanitizeMessage (registered secrets) (lit ++ ws ++ v ++ r)
  = header_out authorization ++ r.
Proof.
  intros Hlit Hws Hv Hns Hr Hp H1 H2 H3.
  unfold sanitizeMessage, redact_headers.
  rewrite redact_patterns_absent.
  - rewrite (redact_header_unmatched x_api_key) by done.
    rewrite (redact_header_unmatched x_api_secret) by done.
    rewrite (redact_header_hit _ _ _
               (header_match_word _ _ _ _ _ Hlit Hws Hv Hns Hr)).
    replace (lit ++ ws ++ v ++ r) with ((lit ++ ws ++ v) ++ r)
      by by rewrite <- !app_assoc.
    rewrite drop_app_length. by rewrite redact_header_unmatched.
  - intros q Hq. split; [|by apply Hp].
    by apply registered_elem in Hq as [_ Hq].
Qed.

Lemma sanitizeMessage_authorization_rest_witness :
  sanitizeMessage (registered [u16 "s3cr3t-9"])
    (u16 "Authorization:" ++ u16 " " ++ u16 "Bearer"
     ++ u16 " eyJhbGciOi.J9 x-api-key:")
  = header_out authorization ++ u16 " eyJhbGciOi.J9 x-api-key:".
Proof.
  apply sanitizeMessage_authorization_rest; try by vm_compute.
  intros p Hp Hocc. apply includes_spec in Hocc.
  apply registered_elem in Hp as [Hp _].
  destruct Hp as [<- | []]. by vm_compute in Hocc.
Defined.

(** ** The client factory and the configuration *)

(** X6: the credentials of a loaded configuration are always registered.
    For every environment from which [loadConfig] returns a configuration,
    [createClient] on the empty registry leaves the registry holding the
    API key and the API secret, in this order; and when neither overlaps a
    text the sanitizer writes, no message sanitized with this registry
    contains the API key or the API secret. *)
Theorem createClient_registers_credentials (env : gmap string jsstring)
    (config : Config.AppConfig) :
  Config.loadConfig env = Returns config →
  let reg := (Client.createClient config SENSITIVE_PATTERNS).1 in
  reg = [Config.apiKey config; Config.apiSecret config]
  ∧ (clear_of_written reg = true →
     ∀ M, ¬ occurs (Config.apiKey config) (sanitizeMessage reg M)
          ∧ ¬ occurs (Config.apiSecret config) (sanitizeMessage reg M)).
Proof.
  intros Hload reg.
  assert (Hne : Config.apiKey config ≠ [] ∧ Config.apiSecret config ≠ []).
  { destruct (Config.missing_variables env) eqn:E.
    - destruct (loadConfig_returns env E)
        as (u & a & s & _ & _ & _ & _ & Ha & Hs & Hr).
      rewrite Hr in Hload. injection Hload as <-. done.
    - rewrite loadConfig_throws in Hload by by rewrite E. done. }
  destruct Hne as [Hk Hs].
  assert (Hreg : reg = [Config.apiKey config; Config.apiSecret config]).
  { subst reg. unfold Client.createClient, SENSITIVE_PATTERNS. simpl.
    destruct (Config.apiKey config); [done|].
    by destruct (Config.apiSecret config). }
  split; [done|]. intros Hclear M. rewrite Hreg in *.
  split; apply sanitizeMessage_clear; try done; simpl; auto;
    intros q [<- | [<- | []]]; done.
Qed.

Lemma createClient_registers_credentials_witness :
  let env : gmap string jsstring :=
    {[ "KOMODO_URL"%string := u16 "https://komodo.example/";
       "KOMODO_API_KEY"%string := u16 "K0-pa55";
       "KOMODO_API_SECRET"%string := u16 "s3cr3t-9" ]} in
  let config := {|
    Config.url := u16 "https://komodo.example";
    Config.apiKey := u16 "K0-pa55"; Config.apiSecret := u16 "s3cr3t-9";
    Config.accessTier := full; Config.categories := None;
    Config.debug := false |} in
  (Client.createClient config SENSITIVE_PATTERNS).1
  = [u16 "K0-pa55"; u16 "s3cr3t-9"].
Proof.
  intros env config.
  apply (createClient_registers_credentials env config). by vm_compute.
Defined.

Lemma strip_trailing_slashes_spec (u : jsstring) :
  ∃ slashes,
    u = Config.strip_trailing_slashes u ++ slashes
    ∧ forallb (λ c, (c =? 47)%N) slashes = true
    ∧ last (Config.strip_trailing_slashes u) ≠ Some 47%N.
Proof.
  unfold Config.strip_trailing_slashes.
  set (p := λ c : N, (c =? 47)%N).
  exists (rev (keep_while p (rev u))). split; [|split].
  - rewrite <- rev_app_distr, skip_keep_while. by rewrite rev_involutive.
  - rewrite forallb_forall. intros c Hc. apply in_rev in Hc.
    pose proof (keep_while_all p (rev u)) as H.
    rewrite forallb_forall in H. by apply H.
  - destruct (skip_while p (rev u)) as [|d w] eqn:E; [done|].
    simpl. rewrite last_snoc. intros [= ->].
    pose proof (skip_while_head p _ _ _ E) as H. by vm_compute in H.
Qed.

(** X7: the URL of a loaded configuration is the value of the variable
    without its trailing slashes: the value is the URL followed by slashes
    only, and the URL does not end in a slash.  (It is empty when the value
    consists of slashes.) *)
Theorem loadConfig_url (env : gmap string jsstring)
    (config : Config.AppConfig) :
  Config.loadConfig env = Returns config →
  ∃ u slashes,
    env !! "KOMODO_URL"%string = Some u
    ∧ u = Config.url config ++ slashes
    ∧ forallb (λ c, (c =? 47)%N) slashes = true
    ∧ last (Config.url config) ≠ Some 47%N.
Proof.
  intros Hload.
  destruct (Config.missing_variables env) eqn:E.
  - destruct (loadConfig_returns env E)
      as (u & a & s & Hu & _ & _ & _ & _ & _ & Hr).
    rewrite Hr in Hload. injection Hload as <-. simpl.
    destruct (strip_trailing_slashes_spec u) as (sl & H1 & H2 & H3).
    by exists u, sl.
  - rewrite loadConfig_throws in Hload by by rewrite E. done.
Qed.

Lemma loadConfig_url_witness :
  ∃ u slashes,
    ({[ "KOMODO_URL"%string := u16 "https://komodo.example//";
        "KOMODO_API_KEY"%string := u16 "K0-pa55";
        "KOMODO_API_SECRET"%string := u16 "s3cr3t-9" ]}
       : gmap string jsstring) !! "KOMODO_URL"%string = Some u
    ∧ u = u16 "https://komodo.example" ++ slashes
    ∧ forallb (λ c, (c =? 47)%N) slashes = true
    ∧ last (u16 "https://komodo.example") ≠ Some 47%N.
Proof.
  apply (loadConfig_url _ {|
    Config.url := u16 "https://komodo.example";
    Config.apiKey := u16 "K0-pa55"; Config.apiSecret := u16 "s3cr3t-9";
    Config.accessTier := full; Config.categories := None;
    Config.debug := false |}).
  by vm_compute.
Defined.

(** ** Registration of the tools *)

Section Registrations.

Context {ZodRawShape Handler : Type}.

Abbreviation Options' := (Tools.ToolRegistrationOptions ZodRawShape Handler).
Abbreviation Server' := (Tools.McpServer ZodRawShape Handler).

(** Object spread over the two defaults, property by property. *)
Lemma spread_defaults (a b : value) (over : option Tools.ToolAnnotations) :
  let given : Tools.ToolAnnotations := default ∅ over in
  Tools.spread
    {[ "readOnlyHint"%string := a; "destructiveHint"%string := b ]} over
  = <[ "readOnlyHint"%string :=
         default a (given !! "readOnlyHint"%string) ]>
    (<[ "destructiveHint"%string :=
          default b (given !! "destructiveHint"%string) ]> given).
Proof.
  intros given. unfold Tools.spread. fold given.
  apply map_eq. intros key. rewrite lookup_union.
  destruct (decide (key = "readOnlyHint"%string)) as [->|Hr].
  { rewrite !lookup_insert_eq. by destruct (given !! _). }
  rewrite !(lookup_insert_ne _ "readOnlyHint"%string) by done.
  destruct (decide (key = "destructiveHint"%string)) as [->|Hd].
  { rewrite !lookup_insert_eq. by destruct (given !! _). }
  rewrite lookup_insert_ne by done.
  rewrite lookup_singleton_ne by done.
  by destruct (given !! key).
Qed.

Lemma registerTool_registration (server : Server') config
    (options : Options') :
  Tools.registerTool server config options
  = if (Tools.registerTool [] config options).1
    then (true, server ++ [registration options])
    else (false, server).
Proof.
  unfold Tools.registerTool, registration.
  destruct (_ <? _); [done|].
  destruct (match Config.categories config with
            | Some _ => _ | None => _ end); [done|].
  simpl. by rewrite spread_defaults.
Qed.

(** X8: a tool that passes the gate is registered under its name with its
    description, input schema and handler unchanged and with these
    annotations: every property the tool's annotations have is kept with
    its value, [undefined] included, so that a hint given as [undefined]
    wins over the default; a [readOnlyHint] they do not have is whether
    the tool's tier is [read-only], a [destructiveHint] they do not have
    is [false]; no other property is added. *)
Theorem registerTool_registers_as (server : Server') config
    (options : Options') :
  (Tools.registerTool server config options).1 = true →
  let given : Tools.ToolAnnotations :=
    default ∅ (Tools.annotations options) in
  ∃ toolConfig,
    (Tools.registerTool server config options).2
    = server ++ [(Tools.name options, toolConfig, Tools.handler options)]
    ∧ Tools.tc_description toolConfig = Tools.description options
    ∧ Tools.tc_inputSchema toolConfig = Tools.inputSchema options
    ∧ (∀ key v, given !! key = Some v →
                Tools.tc_annotations toolConfig !! key = Some v)
    ∧ (given !! "readOnlyHint"%string = None →
       Tools.tc_annotations toolConfig !! "readOnlyHint"%string
       = Some (VBool (bool_decide (Tools.accessTier options = read_only))))
    ∧ (given !! "destructiveHint"%string = None →
       Tools.tc_annotations toolConfig !! "destructiveHint"%string
       = Some (VBool false))
    ∧ (∀ key, given !! key = None →
              key ≠ "readOnlyHint"%string →
              key ≠ "destructiveHint"%string →
              Tools.tc_annotations toolConfig !! key = None).
Proof.
  intros H given.
  rewrite (registerTool_decision server [] config options) in H.
  rewrite registerTool_registration, H. unfold registration. fold given.
  eexists. split; [reflexivity|]. simpl.
  split; [done|]. split; [done|]. split; [|split; [|split]].
  - intros key v Hv.
    destruct (decide (key = "readOnlyHint"%string)) as [->|Hr].
    { by rewrite lookup_insert_eq, Hv. }
    rewrite lookup_insert_ne by done.
    destruct (decide (key = "destructiveHint"%string)) as [->|Hd].
    { by rewrite lookup_insert_eq, Hv. }
    by rewrite lookup_insert_ne.
  - intros Hr. by rewrite lookup_insert_eq, Hr.
  - intros Hd. rewrite lookup_insert_ne by done.
    by rewrite lookup_insert_eq, Hd.
  - intros key Hk Hr Hd. by rewrite !lookup_insert_ne.
Qed.

Lemma registerAll_filter config (tools : list Options') (server : Server') :
  Tools.registerAll config tools server
  = server
    ++ map registration
         (filter (λ o, (Tools.registerTool [] config o).1 = true) tools).
Proof.
  revert server; induction tools as [|o tools IH]; intros server; simpl.
  - by rewrite app_nil_r.
  - unfold Tools.registerAll in *. simpl. rewrite IH.
    rewrite registerTool_registration, filter_cons.
    case_decide as E.
    + rewrite E. simpl. by rewrite <- app_assoc.
    + apply not_true_is_false in E. by rewrite E.
Qed.

(** X9: a run of [registerTool] over a list of tools keeps what the server
    held and appends, in the order of the list, exactly the tools that pass
    the gate; a tool that does not pass leaves no trace. *)
Theorem registerAll_appends_passing config (tools : list Options')
    (server : Server') :
  ∃ added,
    Tools.registerAll config tools server = server ++ added
    ∧ map (λ r, r.1.1) added
      = map Tools.name
          (filter (λ o, (Tools.registerTool [] config o).1 = true) tools)
    ∧ length added ≤ length tools.
Proof.
  eexists. split; [apply registerAll_filter|]. split.
  - rewrite map_map. done.
  - rewrite length_map. apply length_filter.
Qed.

(** X10: under a category allowlist, every tool a run registers has its
    category in the allowlist, whatever the tier. *)
Theorem registerAll_within_allowlist config (tools : list Options')
    (allowed : list jsstring) r :
  Config.categories config = Some allowed →
  r ∈ Tools.registerAll config tools [] →
  ∃ options, options ∈ tools ∧ r = registration options
             ∧ Tools.category options ∈ allowed.
Proof.
  intros Hc. rewrite registerAll_filter. simpl.
  intros [o [-> Ho]]%list_elem_of_fmap.
  apply list_elem_of_filter in Ho as [Hp Ho].
  exists o. split; [done|]. split; [done|].
  apply registerTool_true in Hp as [_ [H | [l [H1 H2]]]]; congruence.
Qed.

End Registrations.

(** Membership in a list that computes, by the position. *)
Ltac elem_at n :=
  first [ apply (list_elem_of_lookup_2 _ n); vm_compute; reflexivity
        | lazymatch n with
          | 64 => fail
          | _ => elem_at (S n)
          end ].

Lemma registerAll_within_allowlist_witness :
  ∃ options : Tools.ToolRegistrationOptions unit unit,
    options ∈ Catalog.serverTools (λ _, []) (λ _, None) (λ _, tt)
              ++ Catalog.writeTools (λ _, []) (λ _, None) (λ _, tt)
    ∧ registration
        (Catalog.tool (λ _, []) (λ _, None) (λ _, tt)
           "komodo_get_server" read_only "servers" true false true)
      = registration options
    ∧ Tools.category options ∈ [u16 "servers"].
Proof.
  apply (registerAll_within_allowlist
           {| Config.url := u16 "https://komodo.example";
              Config.apiKey := u16 "K0-pa55";
              Config.apiSecret := u16 "s3cr3t-9";
              Config.accessTier := full;
              Config.categories := Some [u16 "servers"];
              Config.debug := false |}); [done|].
  elem_at 0.
Defined.

Lemma registerTool_registers_as_witness :
  let config := {|
    Config.url := u16 "https://komodo.example";
    Config.apiKey := u16 "K0-pa55"; Config.apiSecret := u16 "s3cr3t-9";
    Config.accessTier := full;
    Config.categories := None; Config.debug := false |} in
  let options := {|
    Tools.name := u16 "komodo_list_servers";
    Tools.description := u16 "List the servers";
    Tools.accessTier := read_only; Tools.category := u16 "servers";
    Tools.annotations := Some {[ "readOnlyHint"%string := VUndefined ]};
    Tools.inputSchema := @None unit;
    Tools.handler := tt |} in
  ∃ toolConfig,
    (Tools.registerTool [] config options).2
    = [(u16 "komodo_list_servers", toolConfig, tt)]
    ∧ Tools.tc_annotations toolConfig !! "readOnlyHint"%string
      = Some VUndefined
    ∧ Tools.tc_annotations toolConfig !! "destructiveHint"%string
      = Some (VBool false)
    ∧ Tools.readOnlyHint (Tools.tc_annotations toolConfig) = None.
Proof.
  intros config options.
  destruct (registerTool_registers_as [] config options eq_refl)
    as (toolConfig & Hs & _ & _ & Hkept & _ & Hd & _).
  exists toolConfig. split; [exact Hs|].
  assert (Hr : Tools.tc_annotations toolConfig !! "readOnlyHint"%string
               = Some VUndefined) by (apply Hkept; reflexivity).
  split; [exact Hr|]. split; [apply Hd; reflexivity|].
  unfold Tools.readOnlyHint, Tools.hint. by rewrite Hr.
Defined.

(** ** The tools of the server *)

Section AllTools.

Context {ZodRawShape Handler : Type}.
Variable describe : jsstring → jsstring.
Variable schema : jsstring → option ZodRawShape.
Variable handle : jsstring → Handler.

Lemma registerAll_app config
    (t1 t2 : list (Tools.ToolRegistrationOptions ZodRawShape Handler))
    server :
  Tools.registerAll config (t1 ++ t2) server
  = Tools.registerAll config t2 (Tools.registerAll config t1 server).
Proof. unfold Tools.registerAll. apply fold_left_app. Qed.

(** The modules register, one after the other, the tools of [allTools]. *)
Lemma registerAllTools_registerAll server config :
  Catalog.registerAllTools describe schema handle server config
  = Tools.registerAll config (Catalog.allTools describe schema handle) server.
Proof.
  unfold Catalog.registerAllTools, Catalog.allTools.
  rewrite !registerAll_app. reflexivity.
Qed.

(** X11: whatever the configuration, [registerAllTools] on a fresh server
    registers no tool name twice. *)
Theorem registerAllTools_names_distinct config :
  NoDup (map (λ r, r.1.1)
           (Catalog.registerAllTools describe schema handle [] config)).
Proof.
  rewrite registerAllTools_registerAll, registerAll_filter. simpl.
  rewrite map_map. simpl.
  apply (sublist_NoDup _
           (map Tools.name (Catalog.allTools describe schema handle))).
  - apply (bool_decide_unpack _). by vm_compute.
  - apply fmap_sublist, sublist_filter.
Qed.

(** X12: without a category allowlist, [registerAllTools] on a fresh server
    registers 32 tools under the tier [read-only], 48 under [read-execute]
    and all 49 under [full]. *)
Theorem registerAllTools_count config :
  Config.categories config = None →
  length (Catalog.registerAllTools describe schema handle [] config)
  = match Config.accessTier config with
    | read_only => 32
    | read_execute => 48
    | full => 49
    end.
Proof.
  intros Hc. rewrite registerAllTools_registerAll, registerAll_filter.
  simpl. rewrite length_map.
  destruct config as [u k s t c d]. simpl in *. subst c.
  destruct t; by vm_compute.
Qed.

(** X13: under the tier [read-only], whatever the allowlist, every tool
    that [registerAllTools] registers carries the read-only hint [true]
    and the destructive hint [false]. *)
Theorem registerAllTools_read_only_hints config r :
  Config.accessTier config = read_only →
  r ∈ Catalog.registerAllTools describe schema handle [] config →
  Tools.readOnlyHint (Tools.tc_annotations r.1.2) = Some true
  ∧ Tools.destructiveHint (Tools.tc_annotations r.1.2) = Some false.
Proof.
  intros Ht. rewrite registerAllTools_registerAll, registerAll_filter.
  simpl. intros [o [-> Ho]]%list_elem_of_fmap.
  apply list_elem_of_filter in Ho as [Hp Ho].
  apply registerTool_true in Hp as [Hp _]. rewrite Ht in Hp.
  assert (Hall : Forall (λ o,
            Tools.accessTier o = read_only →
            Tools.readOnlyHint (Tools.tc_annotations (registration o).1.2)
            = Some true
            ∧ Tools.destructiveHint
                (Tools.tc_annotations (registration o).1.2) = Some false)
            (Catalog.allTools describe schema handle)).
  { apply (bool_decide_unpack _). by vm_compute. }
  rewrite Forall_forall in Hall. apply (Hall o Ho).
  destruct (Tools.accessTier o); simpl in Hp; [done | lia..].
Qed.

End AllTools.

Lemma registerAllTools_count_witness :
  length (Catalog.registerAllTools (ZodRawShape := unit) (λ _, [])
            (λ _, None) (λ _, tt) []
            {| Config.url := u16 "https://komodo.example";
               Config.apiKey := u16 "K0-pa55";
               Config.apiSecret := u16 "s3cr3t-9";
               Config.accessTier := read_execute;
               Config.categories := None; Config.debug := false |})
  = 48.
Proof. by apply registerAllTools_count. Defined.

Lemma registerAllTools_read_only_hints_witness :
  let r := registration
             (Catalog.tool (ZodRawShape := unit) (λ _, []) (λ _, None)
                (λ _, tt) "komodo_get_stack_log" read_only "stacks"
                true false true) in
  Tools.readOnlyHint (Tools.tc_annotations r.1.2) = Some true
  ∧ Tools.destructiveHint (Tools.tc_annotations r.1.2) = Some false.
Proof.
  intros r.
  apply (registerAllTools_read_only_hints (λ _, []) (λ _, None) (λ _, tt)
           {| Config.url := u16 "https://komodo.example";
              Config.apiKey := u16 "K0-pa55";
              Config.apiSecret := u16 "s3cr3t-9";
              Config.accessTier := read_only;
              Config.categories := Some [u16 "stacks"];
              Config.debug := false |}); [done|].
  elem_at 0.
Defined.

(** ** The write tool *)

Section WriteTool.

Variable client : Write.KomodoClient.
Variable reg : registry.

(** The cases of a run of the handler: by action, resource type, the
    arguments given, the fields of the configuration and what the client
    answers. *)
Ltac handler_cases action t name id config :=
  unfold Write.handler, Write.handleCreate, Write.handleUpdate,
    Write.handleDelete;
  destruct action, t, name as [[|? ?]|], id as [[|? ?]|], config as [?|];
  simpl;
  unfold Write.update_field, mbind, Write.run_bind, Write.write, mret,
    Write.run_ret; simpl;
  repeat match goal with
         | |- context [Write.defined ?v] =>
             destruct (Write.defined v) eqn:?; simpl
         end;
  repeat match goal with
         | |- context [match client ?l ?x with
                       | Write.Resolves _ => _
                       | Write.Rejects _ => _
                       end] =>
             destruct (client l x) eqn:?; simpl
         end;
  rewrite <- ?app_assoc; simpl.

(** X14: a run of the handler keeps the calls made before it and adds at
    most one call of [client.write], except for the update of a
    [Variable], which adds at most three; the operations called are, in
    this order and without repetition, among [UpdateVariableValue],
    [UpdateVariableDescription] and [UpdateVariableIsSecret] for the update
    of a [Variable], and otherwise the one named after the action and the
    resource type; [undefined] is never passed as operation. *)
Theorem handler_calls t action name id config log :
  ∃ new,
    (Write.handler client reg t action name id config log).1 = log ++ new
    ∧ map Write.op new
      `sublist_of`
      match action, t with
      | Write.update, Write.Variable_ =>
          [ Some (u16 "UpdateVariableValue");
            Some (u16 "UpdateVariableDescription");
            Some (u16 "UpdateVariableIsSecret") ]
      | _, _ => [ Some (Write.op_prefix action ++ Write.type_name t) ]
      end.
Proof.
  handler_cases action t name id config;
    (eexists; split;
     [ first [reflexivity | symmetry; apply app_nil_r]
     | vm_compute;
       repeat first [ apply sublist_nil | apply sublist_skip
                    | apply sublist_cons ] ]).
Qed.

(** The calls a run has added, from the equation of its log. *)
Ltac new_calls H :=
  first [ apply app_inv_head in H
        | rewrite <- (app_nil_r (A:=Write.Call)) in H at 1;
          apply app_inv_head in H ].

(** X15: every call of [client.write] that the handler makes identifies
    the resource by a string that is not empty: its first parameter is
    [name] (on create, and for a [Variable]) or [id] (otherwise), with the
    name or the id given to the tool as value; for a [Variable] the name is
    used when one is given, the id only when it is not. *)
Theorem handler_identifies_resource t action name id config log new call :
  (Write.handler client reg t action name id config log).1 = log ++ new →
  call ∈ new →
  ∃ key ident rest,
    Write.params call = VObject ((key, VString ident) :: rest)
    ∧ ident ≠ []
    ∧ ((key = u16 "name"
        ∧ (action = Write.create ∨ t = Write.Variable_)
        ∧ (Config.falsy name = false → name = Some ident))
       ∨ (key = u16 "id" ∧ action ≠ Write.create ∧ t ≠ Write.Variable_))
    ∧ (name = Some ident ∨ id = Some ident).
Proof.
  revert new call. handler_cases action t name id config;
    intros new call H Hin; new_calls H; subst new;
    repeat (apply elem_of_cons in Hin as [-> | Hin]);
    try (by apply elem_of_nil in Hin);
    simpl; eexists _, _, _; (split; [reflexivity|]);
    (split; [done|]); naive_solver.
Qed.

(** X16: when a run of the handler makes no call, it has refused the
    request: it returns a response flagged as error whose text begins with
    [Error: '] and names the missing argument.  The one exception is the
    update of a [Variable] with a configuration that has none of [value],
    [description] and [is_secret]: it makes no call and reports the
    variable as updated. *)
Theorem handler_without_call t action name id config log :
  (Write.handler client reg t action name id config log).1 = log →
  ∃ response,
    (Write.handler client reg t action name id config log).2
    = Returns response
    ∧ ((Write.isError response = Some true
        ∧ ∃ rest, Write.content response
                  = [ {| type := u16 "text";
                         text := u16 "Error: '" ++ rest |} ])
       ∨ (action = Write.update ∧ t = Write.Variable_
          ∧ Write.isError response = None
          ∧ ∃ c varName,
              config = Some c
              ∧ Write.defined (Write.get c (u16 "value")) = false
              ∧ Write.defined (Write.get c (u16 "description")) = false
              ∧ Write.defined (Write.get c (u16 "is_secret")) = false
              ∧ Write.content response
                = [ {| type := u16 "text";
                       text := Write.formatResourceUpdated (u16 "Variable")
                                 {| Write._id := None;
                                    Write.name := varName;
                                    Write.description := None |} |} ])).
Proof.
  handler_cases action t name id config; intros H;
    try (exfalso; apply (f_equal length) in H;
         rewrite ?length_app in H; simpl in H; lia);
    unfold Write.error_response, Write.text_response;
    (eexists; split; [reflexivity|]); simpl;
    first
      [ left; split; [reflexivity|];
        match goal with
        | |- ∃ rest, [ {| type := _; text := ?t |} ] = _ =>
            exists (drop 8 t); by vm_compute
        end
      | right; repeat split; try done; eexists _, _;
        repeat split; try done ].
Qed.

(** X17: the handler stops at the first call that rejects: no further
    call is made, the calls made before it stay made, and the handler
    ends with what [handleKomodoError] gives for the rejection and the
    context [<action> <type> '<name>' (<id>)], in which an argument that
    is missing or empty is left out. *)
Theorem handler_stops_at_rejection t action name id config log
    pre call post rejected :
  (Write.handler client reg t action name id config log).1
  = log ++ pre ++ call :: post →
  client (log ++ pre) call = Write.Rejects rejected →
  post = []
  ∧ (Write.handler client reg t action name id config log).2
    = Write.of_error <$>
        handleKomodoError reg
          (Write.error_context action t name id) rejected.
Proof.
  revert pre call post rejected.
  handler_cases action t name id config;
    intros pre call post rejected H Hrej; new_calls H;
    destruct pre as [|p1 [|p2 [|p3 pre]]]; simplify_eq/=;
    rewrite ?app_nil_r in *; rewrite <- ?app_assoc in *; simpl in *;
    try congruence; try (by destruct pre);
    split; try done; congruence.
Qed.


End WriteTool.

Lemma handler_identifies_resource_witness :
  let always : Write.KomodoClient := λ _ _,
    Write.Resolves {| Write._id := None; Write.name := u16 "TOKEN";
                      Write.description := None |} in
  ∃ key ident rest,
    VObject [(u16 "name", VString (u16 "TOKEN"))]
    = VObject ((key, VString ident) :: rest)
    ∧ ident ≠ []
    ∧ ((key = u16 "name"
        ∧ (Write.delete = Write.create ∨ Write.Variable_ = Write.Variable_)
        ∧ (Config.falsy (Some (u16 "TOKEN")) = false →
           Some (u16 "TOKEN") = Some ident))
       ∨ (key = u16 "id" ∧ Write.delete ≠ Write.create
          ∧ Write.Variable_ ≠ Write.Variable_))
    ∧ (Some (u16 "TOKEN") = Some ident ∨ Some (u16 "v-17") = Some ident).
Proof.
  intros always.
  apply (handler_identifies_resource always [] Write.Variable_ Write.delete
           (Some (u16 "TOKEN")) (Some (u16 "v-17")) None []
           [ {| Write.op := Some (u16 "DeleteVariable");
                Write.params := VObject [(u16 "name", VString (u16 "TOKEN"))] |} ]
           {| Write.op := Some (u16 "DeleteVariable");
              Write.params := VObject [(u16 "name", VString (u16 "TOKEN"))] |}).
  - reflexivity.
  - apply list_elem_of_singleton. reflexivity.
Defined.


Lemma handler_without_call_witness :
  let never : Write.KomodoClient := λ _ _, Write.Rejects VNull in
  ∃ response,
    (Write.handler never [] Write.Stack Write.update None None
       (Some [(u16 "environment", VString (u16 "A=1"))]) []).2
    = Returns response
    ∧ ((Write.isError response = Some true
        ∧ ∃ rest, Write.content response
                  = [ {| type := u16 "text";
                         text := u16 "Error: '" ++ rest |} ])
       ∨ (Write.update = Write.update ∧ Write.Stack = Write.Variable_
          ∧ Write.isError response = None
          ∧ ∃ c varName,
              Some [(u16 "environment", VString (u16 "A=1"))] = Some c
              ∧ Write.defined (Write.get c (u16 "value")) = false
              ∧ Write.defined (Write.get c (u16 "description")) = false
              ∧ Write.defined (Write.get c (u16 "is_secret")) = false
              ∧ Write.content response
                = [ {| type := u16 "text";
                       text := Write.formatResourceUpdated (u16 "Variable")
                                 {| Write._id := None;
                                    Write.name := varName;
                                    Write.description := None |} |} ])).
Proof.
  intros never. apply handler_without_call. reflexivity.
Defined.

Lemma handler_stops_at_rejection_witness :
  let client : Write.KomodoClient := λ log call,
    match log with
    | [] => Write.Resolves {| Write._id := None; Write.name := u16 "TOKEN";
                              Write.description := None |}
    | _ :: _ => Write.Rejects (VError (PString (u16 "403 for K0-pa55")))
    end in
  let c1 := {| Write.op := Some (u16 "UpdateVariableValue");
               Write.params := VObject [(u16 "name", VString (u16 "TOKEN"));
                                        (u16 "value", VString (u16 "x"))] |} in
  let c2 := {| Write.op := Some (u16 "UpdateVariableIsSecret");
               Write.params := VObject [(u16 "name", VString (u16 "TOKEN"));
                                        (u16 "is_secret", VBool true)] |} in
  (Write.handler client [u16 "K0-pa55"] Write.Variable_ Write.update
     (Some (u16 "TOKEN")) None
     (Some [(u16 "value", VString (u16 "x"));
            (u16 "is_secret", VBool true)]) []).2
  = Write.of_error <$>
      handleKomodoError [u16 "K0-pa55"]
        (Write.error_context Write.update Write.Variable_
           (Some (u16 "TOKEN")) None)
        (VError (PString (u16 "403 for K0-pa55"))).
Proof.
  intros client c1 c2.
  apply (handler_stops_at_rejection client [u16 "K0-pa55"] Write.Variable_
           Write.update (Some (u16 "TOKEN")) None _ [] [c1] c2 []);
    reflexivity.
Defined.


(** ** The allowlist, written back and parsed again *)

Lemma split_without_sep sep (x : jsstring) : sep ∉ x → split sep x = [x].
Proof.
  induction x as [|c x IH]; [done|]. intros H.
  apply not_elem_of_cons in H as [Hc Hx]. simpl.
  destruct (N.eqb_spec c sep) as [->|_]; [done|]. by rewrite IH.
Qed.

Lemma split_app_sep sep (x rest : jsstring) :
  sep ∉ x → split sep (x ++ sep :: rest) = x :: split sep rest.
Proof.
  induction x as [|c x IH]; intros H; simpl.
  - by rewrite N.eqb_refl.
  - apply not_elem_of_cons in H as [Hc Hx].
    destruct (N.eqb_spec c sep) as [->|_]; [done|]. by rewrite IH.
Qed.

(** Splitting what was joined gives back the segments. *)
Lemma split_join sep (l : list jsstring) :
  l ≠ [] → Forall (λ x, sep ∉ x) l → split sep (join [sep] l) = l.
Proof.
  intros Hl H. induction H as [|x l Hx H IH]; [done|].
  destruct l as [|y l].
  - simpl. by apply split_without_sep.
  - change (join [sep] (x :: y :: l))
      with (x ++ sep :: join [sep] (y :: l)).
    rewrite split_app_sep by done. by rewrite IH.
Qed.

Lemma skip_while_id p (x : jsstring) :
  (∀ c, head x = Some c → p c = false) → skip_while p x = x.
Proof.
  destruct x as [|c x]; [done|]. simpl. intros H. by rewrite (H c).
Qed.

(** A string without white space at its ends is not changed by [trim]. *)
Lemma trim_id (x : jsstring) :
  (∀ c, head x = Some c → is_space c = false) →
  (∀ c, last x = Some c → is_space c = false) →
  trim x = x.
Proof.
  intros Hh Hl. unfold trim. rewrite (skip_while_id _ x Hh).
  rewrite skip_while_id; [apply rev_involutive|].
  intros c Hc. apply Hl.
  destruct x as [|d x _] using rev_ind; [done|].
  rewrite rev_app_distr in Hc. simpl in Hc. injection Hc as ->.
  apply last_snoc.
Qed.

(** The entries of a parsed allowlist are not empty, hold no comma and
    have no white space at their ends. *)
Lemma parseCategories_entries (v : jsstring) l x :
  Config.parseCategories (Some v) = Some l → x ∈ l →
  x ≠ [] ∧ (44%N ∉ x)
  ∧ (∀ c, head x = Some c → is_space c = false)
  ∧ (∀ c, last x = Some c → is_space c = false).
Proof.
  destruct v as [|c v]; [done|]. unfold Config.parseCategories.
  intros [= <-] Hx. apply list_elem_of_filter in Hx as [Hne Hx].
  apply list_elem_of_fmap in Hx as [seg [-> Hseg]].
  split; [by destruct (trim seg); simpl in *; [lia|]|].
  split; [|split; [apply trim_head | apply trim_last]].
  apply (split_no_sep 44%N (c :: v)) in Hseg.
  destruct (trim_decompose seg) as (a & b & Hab & _ & _).
  intros Hin. apply Hseg. rewrite Hab.
  apply elem_of_app. right. apply elem_of_app. by left.
Qed.

(** X19: writing a parsed allowlist back with commas and parsing it again
    gives the same allowlist: for every value from which [parseCategories]
    returns an allowlist that is not empty, parsing the entries joined by
    commas returns that allowlist. *)
Theorem parseCategories_join (v : jsstring) (l : list jsstring) :
  Config.parseCategories (Some v) = Some l → l ≠ [] →
  Config.parseCategories (Some (join [44%N] l)) = Some l.
Proof.
  intros Hp Hl.
  pose proof (λ x, parseCategories_entries v l x Hp) as He.
  assert (Hj : join [44%N] l ≠ []).
  { destruct l as [|x l]; [done|].
    destruct (He x) as [Hx _]; [by left|].
    destruct x as [|c x]; [done|]. by destruct l. }
  destruct (join [44%N] l) as [|c j] eqn:Ej; [done|].
  unfold Config.parseCategories. rewrite <- Ej. f_equal.
  rewrite split_join; [|done|].
  - assert (Hm : map trim l = l).
    { clear Ej Hj Hl Hp. induction l as [|x l IH]; [done|]. simpl.
      destruct (He x) as (_ & _ & Hh & Hla); [by left|].
      rewrite trim_id by done. f_equal. apply IH.
      intros y Hy. apply He. by right. }
    rewrite Hm. clear Hm Ej Hj Hl Hp.
    induction l as [|x l IH]; [done|].
    rewrite filter_cons. destruct (He x) as [Hx _]; [by left|].
    rewrite decide_True by (destruct x; simpl; [done|lia]).
    f_equal. apply IH. intros y Hy. apply He. by right.
  - apply Forall_forall. intros x Hx. by destruct (He x Hx) as (_ & ? & _).
Qed.

Lemma parseCategories_join_witness :
  Config.parseCategories (Some (u16 " stack , ,build"))
    = Some [u16 "stack"; u16 "build"]
  ∧ Config.parseCategories (Some (u16 "stack,build"))
    = Some [u16 "stack"; u16 "build"].
Proof.
  split; [reflexivity|].
  apply (parseCategories_join (u16 " stack , ,build")
           [u16 "stack"; u16 "build"]); [reflexivity | done].
Defined.

(** ** From the environment to the registered tools *)

Section Defaults.

Context {ZodRawShape Handler : Type}.
Variable describe : jsstring → jsstring.
Variable schema : jsstring → option ZodRawShape.
Variable handle : jsstring → Handler.

(** X20: the configuration loaded from an environment that sets the three
    required variables, no category allowlist (KOMODO_CATEGORIES unset or
    empty) and an access tier that is neither [read-only] nor
    [read-execute] (unset, or any other text) makes [registerAllTools]
    register every tool of every module, in the modules' order. *)
Theorem loadConfig_default_registers_all env config :
  Config.loadConfig env = Returns config →
  env !! "KOMODO_ACCESS_TIER"%string ≠ Some (u16 "read-only") →
  env !! "KOMODO_ACCESS_TIER"%string ≠ Some (u16 "read-execute") →
  Config.falsy (env !! "KOMODO_CATEGORIES"%string) = true →
  map (λ r, r.1.1)
    (Catalog.registerAllTools describe schema handle [] config)
  = map Tools.name (Catalog.allTools describe schema handle).
Proof.
  intros Hl Hro Hre Hc.
  assert (Ht : Config.parseAccessTier env = full).
  { unfold Config.parseAccessTier.
    destruct (env !! "KOMODO_ACCESS_TIER"%string) as [t|]; [|done].
    rewrite !bool_decide_eq_false_2; [done|congruence..]. }
  assert (Hn : Config.parseCategories (env !! "KOMODO_CATEGORIES"%string)
               = None).
  { by destruct (env !! "KOMODO_CATEGORIES"%string) as [[|]|]. }
  unfold Config.loadConfig in Hl. rewrite Ht, Hn in Hl.
  case_bool_decide; [done|].
  destruct (env !! "KOMODO_URL"%string) as [u|]; [|done].
  destruct (env !! "KOMODO_API_KEY"%string) as [k|]; [|done].
  destruct (env !! "KOMODO_API_SECRET"%string) as [s|]; [|done].
  injection Hl as <-.
  rewrite registerAllTools_registerAll, registerAll_filter.
  by vm_compute.
Qed.

End Defaults.

Lemma loadConfig_default_registers_all_witness :
  let env : Config.environment :=
    {[ "KOMODO_URL"%string := u16 "https://komodo.example";
       "KOMODO_API_KEY"%string := u16 "K-1";
       "KOMODO_API_SECRET"%string := u16 "S-1";
       "KOMODO_ACCESS_TIER"%string := u16 "readonly" ]} in
  ∃ config,
    Config.loadConfig env = Returns config
    ∧ length (Catalog.registerAllTools (λ _, []) (λ _, @None unit)
                (λ _, tt) [] config) = 49.
Proof.
  intros env. eexists. split; [by vm_compute|].
  rewrite <- (length_map (λ r, r.1.1)).
  erewrite (loadConfig_default_registers_all _ _ _ env);
    [by vm_compute | by vm_compute | by vm_compute | by vm_compute
    | by vm_compute].
Defined.
